(** * Protocol sniffing core of sing-box (package [sniff])

    A shallow embedding of [Skip], [PeekStream] and [PeekPacket], followed
    by the rule and rule-provider handlers of the Clash API.

    - Metadata is a record; sniffers are functions that receive the
      metadata and the bytes and give back the (possibly mutated) metadata
      together with their Go [error] result ([None] is [nil]).
    - The connection is a scripted [net.Conn]: the outcomes of the coming
      [SetReadDeadline] and [ReadOnceFrom] calls are listed in advance, and
      every call made on it is recorded.
    - The goroutines of one race are interleaved by an explicit schedule:
      a list of actions, each of which is carried out when it is enabled
      and skipped when it is not.  A goroutine takes two steps, the call
      of its sniffer and the send of the result; a sniffer call acts on
      the shared metadata at one instant.
    - [E.Cause] and [E.Errors] belong to the sing library; the functions
      report which [return] statement was taken together with the arguments
      handed to the library call, and [Ret_value] gives the Go value that
      results. *)

From Stdlib Require Import ZArith String Bool Arith Lia List Permutation.
Import ListNotations.

Set Implicit Arguments.
Set Warnings "-notation-for-abbreviation".

(** ** Data *)

Definition byte := Byte.byte.

(** A Go [error] value that is not [nil], identified by its message. *)
Definition error := string.

(** [time.Time] and [time.Duration] in nanoseconds; the zero [time.Time{}]
    is [0]. *)
Definition Time := Z.
Definition Duration := Z.
Definition zeroTime : Time := 0%Z.
Definition Add (t : Time) (d : Duration) : Time := (t + d)%Z.

Record Socksaddr := { Port : Z }.

(** The fields of [adapter.InboundContext] that the package touches. *)
Record InboundContext := {
  Protocol : string;
  Destination : Socksaddr
}.

Definition set_Protocol (metadata : InboundContext) (p : string) : InboundContext :=
  {| Protocol := p; Destination := Destination metadata |}.

(** [StreamSniffer] and [PacketSniffer] are type aliases in the source; the
    context argument only carries the advisory cancellation and is left out. *)
Notation StreamSniffer :=
  (InboundContext -> list byte -> InboundContext * option error) (only parsing).
Notation PacketSniffer :=
  (InboundContext -> list byte -> InboundContext * option error) (only parsing).

(** ** Skip *)

Definition Skip (metadata : InboundContext) : bool :=
  let port := Port (Destination metadata) in
  if ((port =? 25) || (port =? 465) || (port =? 587))%Z then true
  else if ((port =? 143) || (port =? 993))%Z then true
  else if ((port =? 110) || (port =? 995))%Z then true
  else false.

(** ** The connection *)

Inductive ConnCall :=
| CallSetReadDeadline (t : Time)
| CallRead.

(** One outcome of [buffer.ReadOnceFrom(conn)]: the time the call took, the
    bytes it appended to the buffer and its error. *)
Record ReadStep := {
  took : Duration;
  data : list byte;
  failure : option error
}.

Record Conn := {
  clock : Time;                            (* what time.Now() shows *)
  deadline_results : list (option error);  (* of the coming SetReadDeadline calls *)
  reads : list ReadStep;                   (* of the coming ReadOnceFrom calls *)
  calls : list ConnCall                    (* the calls made so far, oldest first *)
}.

Definition Now (conn : Conn) : Time := clock conn.

(** A [SetReadDeadline] beyond the script succeeds. *)
Definition SetReadDeadline (t : Time) (conn : Conn) : Conn * option error :=
  ({| clock := clock conn;
      deadline_results := tl (deadline_results conn);
      reads := reads conn;
      calls := calls conn ++ [CallSetReadDeadline t] |},
   match deadline_results conn with
   | r :: _ => r
   | [] => None
   end).

Definition EOF : error := "EOF"%string.

(** A read beyond the script finds the stream ended. *)
Definition ReadOnceFrom (conn : Conn) : Conn * list byte * option error :=
  match reads conn with
  | s :: rest =>
      ({| clock := (clock conn + took s)%Z;
          deadline_results := deadline_results conn;
          reads := rest;
          calls := calls conn ++ [CallRead] |}, data s, failure s)
  | [] =>
      ({| clock := clock conn;
          deadline_results := deadline_results conn;
          reads := [];
          calls := calls conn ++ [CallRead] |}, [], Some EOF)
  end.

(** ** One race: goroutines, channel and collector *)

(** A sniffer already applied to the bytes of this race. *)
Notation Task := (InboundContext -> InboundContext * option error) (only parsing).

(** What the scheduler can let happen next. *)
Inductive Action :=
| Run (i : nat)    (* goroutine i evaluates sn(fastClose, metadata, ...) *)
| Send (i : nat)   (* goroutine i sends what it holds on errorsChan; wg.Done *)
| Close            (* the background goroutine passes wg.Wait and closes the channel *)
| Recv.            (* the collector takes its next step on the channel *)

Record Race := {
  meta : InboundContext;             (* the shared *adapter.InboundContext *)
  pending : list nat;                (* goroutines whose sniffer has not returned *)
  ready : list (nat * option error); (* goroutines holding a result, not sent yet *)
  chan : list (option error);        (* errorsChan, oldest first *)
  closed : bool;
  errors : list error;               (* the collector's slice *)
  done : list (nat * option error)   (* sniffer calls that returned, oldest first *)
}.

(** All goroutines are started before the collector begins to receive. *)
Definition launch (metadata : InboundContext) (errs : list error) (n : nat) : Race :=
  {| meta := metadata; pending := seq 0 n; ready := []; chan := []; closed := false;
     errors := errs; done := [] |}.

Definition holds (i : nat) (e : nat * option error) : bool := Nat.eqb (fst e) i.

(** Goroutine [i] calls its sniffer: enabled while it has not done so. *)
Definition run (tasks : list Task) (i : nat) (r : Race) : Race :=
  if existsb (Nat.eqb i) (pending r) then
    match nth_error tasks i with
    | Some t =>
        let '(m, res) := t (meta r) in
        {| meta := m; pending := remove Nat.eq_dec i (pending r);
           ready := ready r ++ [(i, res)]; chan := chan r; closed := closed r;
           errors := errors r; done := done r ++ [(i, res)] |}
    | None => r
    end
  else r.

(** Goroutine [i] sends: enabled while it holds a result and the channel
    has room. *)
Definition send (cap i : nat) (r : Race) : Race :=
  match find (holds i) (ready r) with
  | Some e =>
      if length (chan r) <? cap then
        {| meta := meta r; pending := pending r;
           ready := filter (fun e => negb (holds i e)) (ready r);
           chan := chan r ++ [snd e]; closed := closed r;
           errors := errors r; done := done r |}
      else r
  | None => r
  end.

(** The background goroutine: enabled once the wait group is at zero. *)
Definition close (r : Race) : Race :=
  match pending r, ready r with
  | [], [] => {| meta := meta r; pending := []; ready := []; chan := chan r;
                 closed := true; errors := errors r; done := done r |}
  | _, _ => r
  end.

Inductive Verdict :=
| Match      (* a nil arrived: cancel() and return nil *)
| Drained.   (* the channel was closed and empty: the range loop ended *)

(** [for err := range errorsChan]. *)
Fixpoint race (tasks : list Task) (cap : nat) (sched : list Action) (r : Race)
  : option (Verdict * Race) :=
  match sched with
  | [] => None
  | Run i :: sched' => race tasks cap sched' (run tasks i r)
  | Send i :: sched' => race tasks cap sched' (send cap i r)
  | Close :: sched' => race tasks cap sched' (close r)
  | Recv :: sched' =>
      match chan r with
      | None :: q =>
          Some (Match,
                {| meta := meta r; pending := pending r; ready := ready r;
                   chan := q; closed := closed r; errors := errors r;
                   done := done r |})
      | Some err :: q =>
          race tasks cap sched'
               {| meta := meta r; pending := pending r; ready := ready r;
                  chan := q; closed := closed r; errors := errors r ++ [err];
                  done := done r |}
      | [] => if closed r then Some (Drained, r) else race tasks cap sched' r
      end
  end.

(** The goroutines that have not finished. *)
Definition unfinished (r : Race) : list nat := pending r ++ map fst (ready r).

(** ** The return statements *)

Inductive Ret :=
| RetNil                                  (* return nil *)
| RetCause (err : error) (msg : string)   (* return E.Cause(err, msg) *)
| RetErrors (errs : list error).          (* return E.Errors(errs...) *)

Record Outcome := {
  ret : Ret;
  conn_end : Conn;
  meta_end : InboundContext;
  buffer_end : list byte;
  running : list nat;                      (* goroutines not finished at the return *)
  history : list (list (nat * option error)) (* completed invocations, one list per race *)
}.

(** ** PeekPacket *)

(** The return value together with the race as it stands at the return. *)
Definition PeekPacket (metadata : InboundContext) (packet : list byte)
    (sniffers : list PacketSniffer) (sched : list Action) : option (Ret * Race) :=
  let n := length sniffers in
  match race (map (fun sn m => sn m packet) sniffers) n sched (launch metadata [] n) with
  | None => None
  | Some (Match, r) => Some (RetNil, r)
  | Some (Drained, r) => Some (RetErrors (errors r), r)
  end.

(** ** PeekStream *)

Section PeekStream.

(** [C.ReadPayloadTimeout], declared in the [constant] package. *)
Variable ReadPayloadTimeout : Duration.

(** The body of [for i := 0; ; i++]; one schedule per race. *)
Fixpoint PeekStream_loop (deadline : Time) (sniffers : list StreamSniffer)
    (scheds : list (list Action)) (i : nat) (conn : Conn)
    (metadata : InboundContext) (buffer : list byte) (errs : list error)
    (hist : list (list (nat * option error))) {struct scheds} : option Outcome :=
  let '(conn1, armed) := SetReadDeadline deadline conn in
  match armed with
  | Some err =>
      Some {| ret := RetCause err "set read deadline"; conn_end := conn1;
              meta_end := metadata; buffer_end := buffer;
              running := []; history := hist |}
  | None =>
      let '(conn2, got, rerr) := ReadOnceFrom conn1 in
      let buffer' := (buffer ++ got)%list in
      let conn3 := fst (SetReadDeadline zeroTime conn2) in
      match rerr with
      | Some err =>
          if 0 <? i then
            Some {| ret := RetErrors errs; conn_end := conn3;
                    meta_end := metadata; buffer_end := buffer';
                    running := []; history := hist |}
          else
            Some {| ret := RetCause err "read payload"; conn_end := conn3;
                    meta_end := metadata; buffer_end := buffer';
                    running := []; history := hist |}
      | None =>
          match scheds with
          | [] => None
          | sched :: scheds' =>
              let n := length sniffers in
              match race (map (fun sn m => sn m buffer') sniffers) n sched
                         (launch metadata errs n) with
              | None => None
              | Some (Match, r) =>
                  Some {| ret := RetNil; conn_end := conn3;
                          meta_end := meta r; buffer_end := buffer';
                          running := unfinished r;
                          history := (hist ++ [done r])%list |}
              | Some (Drained, r) =>
                  PeekStream_loop deadline sniffers scheds' (S i) conn3
                                  (meta r) buffer' (errors r)
                                  (hist ++ [done r])%list
              end
          end
      end
  end.

Definition PeekStream (metadata : InboundContext) (conn : Conn)
    (buffer : list byte) (timeout : Duration) (sniffers : list StreamSniffer)
    (scheds : list (list Action)) : option Outcome :=
  let timeout := if (timeout =? 0)%Z then ReadPayloadTimeout else timeout in
  let deadline := Add (Now conn) timeout in
  PeekStream_loop deadline sniffers scheds 0 conn metadata buffer [] [].

End PeekStream.

(** ** Detectors

    Modelled from the spec: the per-protocol matchers live in other files of
    the package; the spec describes each as a pure function from the bytes
    to a protocol name or a reason, the protocol being recorded on the
    metadata on a match. *)

Inductive SniffOutcome :=
| Matched (protocol : string)
| Inconclusive (reason : error).

Definition Detector := list byte -> SniffOutcome.

Definition sniffer_of (d : Detector) : StreamSniffer :=
  fun metadata view =>
    match d view with
    | Matched p => (set_Protocol metadata p, None)
    | Inconclusive e => (metadata, Some e)
    end.

(** ** Vocabulary of the statements *)

(** A sniffer that leaves the metadata alone whenever it reports an error. *)
Definition quiet (sn : StreamSniffer) : Prop :=
  forall m view, snd (sn m view) <> None -> fst (sn m view) = m.

(** No sniffer of the list matches [view], whatever the metadata holds. *)
Definition no_match (sniffers : list StreamSniffer) (view : list byte) : Prop :=
  forall sn, In sn sniffers -> forall m, snd (sn m view) <> None.

(** The sniffers applied to the bytes of one race. *)
Definition tasks_of (sniffers : list StreamSniffer) (view : list byte) : list Task :=
  map (fun sn m => sn m view) sniffers.

(** Every goroutine calls its sniffer and sends. *)
Definition settle (n : nat) : list Action :=
  map Run (seq 0 n) ++ map Send (seq 0 n).

(** Every goroutine gets to finish, the channel is closed and the collector
    receives until it is done. *)
Definition drain (n : nat) : list Action :=
  settle n ++ Close :: repeat Recv (S n).

(** A schedule that lets the race come to its end. *)
Definition fair (n : nat) (sched : list Action) : Prop :=
  exists s0, sched = s0 ++ drain n.

(** The race after the goroutines alone have taken the steps of [sched]. *)
Fixpoint background (tasks : list Task) (cap : nat) (sched : list Action) (r : Race) : Race :=
  match sched with
  | [] => r
  | Run i :: sched' => background tasks cap sched' (run tasks i r)
  | Send i :: sched' => background tasks cap sched' (send cap i r)
  | _ :: sched' => background tasks cap sched' r
  end.

(** The sniffer whose nil came last in a list of returned calls. *)
Definition last_match (log : list (nat * option error)) : option nat :=
  fold_left (fun acc e => match snd e with None => Some (fst e) | Some _ => acc end)
            log None.

(** How many of the returned calls gave nil. *)
Definition matches (log : list (nat * option error)) : nat :=
  length (filter (fun e => match snd e with None => true | Some _ => false end) log).

(** The buffer as each of the reads [oks] leaves it. *)
Fixpoint views (buffer : list byte) (oks : list ReadStep) : list (list byte) :=
  match oks with
  | [] => []
  | s :: rest => (buffer ++ data s) :: views (buffer ++ data s) rest
  end.

(** The error of the next read on a connection whose read script is [rs]. *)
Definition script_failure (rs : list ReadStep) : option error :=
  match rs with
  | [] => Some EOF
  | s :: _ => failure s
  end.

(** One round on the connection: arm, read, clear. *)
Definition block (deadline : Time) : list ConnCall :=
  [CallSetReadDeadline deadline; CallRead; CallSetReadDeadline zeroTime].

(** The arming call of each of the first [k] rounds succeeds (round [j]
    arms with the call number [2 * j] on the connection). *)
Definition arms_ok (k : nat) (conn : Conn) : Prop :=
  forall j, j < k -> nth (2 * j) (deadline_results conn) None = None.

Definition reads_made (cs : list ConnCall) : nat :=
  length (filter (fun c => match c with CallRead => true | _ => false end) cs).

(** The sniffer calls of [log] returned in this order, starting from
    metadata [m0] and leaving [m]. *)
Inductive Ran (tasks : list Task) (m0 : InboundContext)
  : list (nat * option error) -> InboundContext -> Prop :=
| Ran_nil : Ran tasks m0 [] m0
| Ran_snoc : forall log m i t m' res,
    Ran tasks m0 log m ->
    nth_error tasks i = Some t ->
    t m = (m', res) ->
    Ran tasks m0 (log ++ [(i, res)]) m'.

(** What holds of the goroutines of a race at every moment. *)
Record race_wf (tasks : list Task) (m0 : InboundContext) (r : Race) : Prop := {
  wf_perm : Permutation (map fst (done r) ++ pending r) (seq 0 (length tasks));
  wf_closed : closed r = true -> pending r = [] /\ ready r = [];
  wf_ran : Ran tasks m0 (done r) (meta r)
}.

(** Where the results are: every returned call is still held by its
    goroutine or was sent, and what was sent is, in order, what the
    collector took ([taken]) followed by what waits in the channel. *)
Definition accounts (errs0 : list error) (r : Race) (taken : list (option error))
    (recv : list error) : Prop :=
  errors r = errs0 ++ recv /\
  exists sent, Permutation (done r) (ready r ++ sent) /\
               map snd sent = taken ++ chan r.

(** What holds of a race while the collector is in its loop. *)
Definition race_inv (tasks : list Task) (m0 : InboundContext) (errs0 : list error)
    (r : Race) : Prop :=
  race_wf tasks m0 r /\ exists recv, accounts errs0 r (map Some recv) recv.

(** What holds of a race when the collector leaves its loop. *)
Definition race_post (tasks : list Task) (m0 : InboundContext) (errs0 : list error)
    (v : Verdict) (r : Race) : Prop :=
  race_wf tasks m0 r /\
  exists recv,
    match v with
    | Drained => accounts errs0 r (map Some recv) recv /\
                 pending r = [] /\ ready r = [] /\ chan r = []
    | Match => accounts errs0 r (map Some recv ++ [None]) recv
    end.

(** The connection after one full round on it. *)
Definition after_round (deadline : Time) (conn : Conn) : Conn :=
  fst (SetReadDeadline zeroTime (fst (fst (ReadOnceFrom (fst (SetReadDeadline deadline conn)))))).

Fixpoint after_rounds (deadline : Time) (k : nat) (conn : Conn) : Conn :=
  match k with
  | 0 => conn
  | S k' => after_rounds deadline k' (after_round deadline conn)
  end.

(** What the next [ReadOnceFrom] on the connection will bring. *)
Definition next_data (conn : Conn) : list byte := snd (fst (ReadOnceFrom conn)).
Definition next_failure (conn : Conn) : option error := snd (ReadOnceFrom conn).

(** What the next [SetReadDeadline] on the connection will answer. *)
Definition next_arm (conn : Conn) : option error := nth 0 (deadline_results conn) None.

(** The sniffer calls of one round in which nobody matched, and the
    reasons the collector took from them. *)
Definition round_log (sniffers : list StreamSniffer) (m : InboundContext)
    (view : list byte) (log : list (nat * option error)) (recv : list error)
    (m' : InboundContext) : Prop :=
  Permutation (map fst log) (seq 0 (length sniffers)) /\
  Permutation (map snd log) (map Some recv) /\
  Ran (tasks_of sniffers view) m log m'.

(** Successive rounds in which nobody matched: the views raced over, the
    sniffer calls of each round and the reasons collected in each. *)
Inductive Rounds (sniffers : list StreamSniffer)
  : InboundContext -> list (list byte) -> list (list (nat * option error)) ->
    list (list error) -> InboundContext -> Prop :=
| Rounds_nil : forall m, Rounds sniffers m [] [] [] m
| Rounds_cons : forall m view log recv m1 vs hist recvs m',
    round_log sniffers m view log recv m1 ->
    Rounds sniffers m1 vs hist recvs m' ->
    Rounds sniffers m (view :: vs) (log :: hist) (recv :: recvs) m'.

(** ** The value returned

    [E.Cause] and [E.Errors] are functions of the sing library
    (common/exceptions), which is not part of this repository.  On errors
    that are not themselves multi-errors, as those of the sniffers here,
    [E.Errors] keeps, in order, the first error of each message
    ([common.UniqBy] with [error.Error] as the key) and returns nil when
    none is left, that error when one is left and a multi-error holding
    them otherwise. *)

Inductive GoError :=
| Plain (e : error)                (* an error as a sniffer returned it *)
| Cause (e : error) (msg : string) (* E.Cause(e, msg) *)
| multiError (errs : list error).

Fixpoint UniqBy (seen : list error) (arr : list error) : list error :=
  match arr with
  | [] => []
  | item :: rest =>
      if existsb (String.eqb item) seen then UniqBy seen rest
      else item :: UniqBy (item :: seen) rest
  end.

Definition Errors (errs : list error) : option GoError :=
  match UniqBy [] errs with
  | [] => None
  | [e] => Some (Plain e)
  | es => Some (multiError es)
  end.

(** The Go [error] a return statement yields; [None] is nil. *)
Definition Ret_value (r : Ret) : option GoError :=
  match r with
  | RetNil => None
  | RetCause e msg => Some (Cause e msg)
  | RetErrors errs => Errors errs
  end.

(** The reasons a returned error holds. *)
Definition reasons_in (v : option GoError) : list error :=
  match v with
  | None => []
  | Some (Plain e) => [e]
  | Some (Cause e _) => [e]
  | Some (multiError es) => es
  end.

(** ** Inputs of the worked runs *)

Definition hello : list byte := [Byte.x16; Byte.x03; Byte.x01].

Definition tls_detector : Detector :=
  fun view =>
    match view with
    | Byte.x16 :: _ => Matched "tls"
    | _ => Inconclusive "not a handshake"%string
    end.

Definition raw_detector : Detector :=
  fun view =>
    match view with
    | _ :: _ => Matched "raw"
    | [] => Inconclusive "no data"%string
    end.

Definition registry : list Detector := [tls_detector; raw_detector].

Definition blank : InboundContext :=
  {| Protocol := EmptyString; Destination := {| Port := 443%Z |} |}.

(** The protocol of the first detector, in registration order, that
    matches the bytes. *)
Fixpoint first_registered (ds : list Detector) (view : list byte) : option string :=
  match ds with
  | [] => None
  | d :: rest =>
      match d view with
      | Matched p => Some p
      | Inconclusive _ => first_registered rest view
      end
  end.

(** Both goroutines have called their sniffer when the first nil is taken. *)
Definition both_then_recv : list Action := [Run 0; Run 1; Send 0; Recv].

(** Only the first goroutine has run when its nil is taken. *)
Definition first_then_recv : list Action := [Run 0; Send 0; Recv].

Definition ok_read (d : list byte) : ReadStep :=
  {| took := 100%Z; data := d; failure := None |}.

Definition bad_read (e : error) : ReadStep :=
  {| took := 100%Z; data := []; failure := Some e |}.

Definition scripted (arms : list (option error)) (rs : list ReadStep) : Conn :=
  {| clock := 1000%Z; deadline_results := arms; reads := rs; calls := [] |}.

(** ** More vocabulary for the sniffing statements *)

(** The reason a detector gives when it does not match. *)
Definition reason (o : SniffOutcome) : option error :=
  match o with
  | Matched _ => None
  | Inconclusive e => Some e
  end.

(** ** The Clash API handlers (package [clashapi])

    The router, its rules, rule sets and outbounds are interfaces of the
    [adapter] package: each is a record of what its methods answer.  A
    handler is a function to the response it writes; [None] stands for a
    panic before anything was written. *)

(** [adapter.Rule] and [adapter.DNSRule]: [String()], and the target as
    the handler reads it, [Outbound()] in the first [getRules] of the file
    and [Action().String()] in the second. *)
Record adapterRule := {
  Rule_String : string;
  Rule_Outbound : string;
  Rule_Action : string
}.

(** [adapter.Outbound]: the object behind the interface value and its tag. *)
Record adapterOutbound := {
  outbound_addr : nat;
  Tag : string
}.

(** [finalTCPOut == finalUDPOut] on interface values; [None] is nil. *)
Definition same_outbound (a b : option adapterOutbound) : bool :=
  match a, b with
  | None, None => true
  | Some x, Some y => Nat.eqb (outbound_addr x) (outbound_addr y)
  | _, _ => false
  end.

Inductive Network := NetworkTCP | NetworkUDP.

Record RuleSetMetadata := {
  Format : string;
  LastUpdated : Time
}.

(** [adapter.RuleSet]; [Update] is what [Update(ctx)] answers. *)
Record adapterRuleSet := {
  Name : string;
  RuleSet_Type : string;
  Metadata : RuleSetMetadata;
  RuleCount : Z;
  Update : option error
}.

(** [adapter.Router], as far as these handlers use it; the error of
    [DefaultOutbound] is dropped by the caller. *)
Record Router := {
  DNSRules : list adapterRule;
  DefaultDNSServer : string;
  Rules : list adapterRule;
  DefaultOutbound : Network -> option adapterOutbound;
  RuleSets : list adapterRuleSet;
  RuleSet : string -> option adapterRuleSet
}.

Record Rule := {
  Type_ : string;
  Payload : string;
  Proxy : string
}.

(** [getRules], first definition in rules.go: the list rendered under
    "rules". *)
Definition getRules (router : Router) : option (list Rule) :=
  let rules :=
    map (fun rule => {| Type_ := "DNS"; Payload := Rule_String rule;
                        Proxy := Rule_Outbound rule |}) (DNSRules router) in
  let rules :=
    rules ++ [{| Type_ := "DNS"; Payload := "final";
                 Proxy := DefaultDNSServer router |}] in
  let rules :=
    rules ++ map (fun rule => {| Type_ := "ROUTE"; Payload := Rule_String rule;
                                 Proxy := Rule_Outbound rule |}) (Rules router) in
  let finalTCPOut := DefaultOutbound router NetworkTCP in
  match finalTCPOut with
  | None => None                      (* finalTCPOut.Tag() on nil *)
  | Some tcp =>
      let finalTCPTag := Tag tcp in
      let finalUDPOut := DefaultOutbound router NetworkUDP in
      if same_outbound finalTCPOut finalUDPOut then
        Some (rules ++ [{| Type_ := "ROUTE"; Payload := "final";
                           Proxy := finalTCPTag |}])
      else
        match finalUDPOut with
        | None => None                (* finalUDPOut.Tag() on nil *)
        | Some udp =>
            Some (rules ++ [{| Type_ := "ROUTE"; Payload := "final_tcp";
                               Proxy := finalTCPTag |};
                            {| Type_ := "ROUTE"; Payload := "final_udp";
                               Proxy := Tag udp |}])
        end
  end.


(** A Go map with string keys, and the ordered object of [badjson]:
    assigning to a key replaces its value or adds the key. *)
Definition M (V : Type) := list (string * V).

Fixpoint M_set {V : Type} (key : string) (value : V) (m : M V) : M V :=
  match m with
  | [] => [(key, value)]
  | (k, v) :: rest =>
      if String.eqb k key then (key, value) :: rest
      else (k, v) :: M_set key value rest
  end.

Fixpoint M_get {V : Type} (key : string) (m : M V) : option V :=
  match m with
  | [] => None
  | (k, v) :: rest => if String.eqb k key then Some v else M_get key rest
  end.

Inductive JSONValue :=
| JString (s : string)
| JInt (n : Z).

Definition JSONObject := M JSONValue.

Definition Put (key : string) (value : JSONValue) (obj : JSONObject) : JSONObject :=
  M_set key value obj.

Definition updatedAt_layout : string := "2006-01-02T15:04:05.999999999-07:00".

(** The request context. *)
Inductive CtxKey := CtxKeyProviderName | CtxKeyProvider.

Inductive CtxValue :=
| CtxString (s : string)
| CtxRuleSet (ruleSet : adapterRuleSet).

Definition Context := list (CtxKey * CtxValue).

Definition CtxKey_eqb (a b : CtxKey) : bool :=
  match a, b with
  | CtxKeyProviderName, CtxKeyProviderName => true
  | CtxKeyProvider, CtxKeyProvider => true
  | _, _ => false
  end.

Definition WithValue (ctx : Context) (key : CtxKey) (val : CtxValue) : Context :=
  (key, val) :: ctx.

Fixpoint Value (ctx : Context) (key : CtxKey) : option CtxValue :=
  match ctx with
  | [] => None
  | (k, v) :: rest => if CtxKey_eqb k key then Some v else Value rest key
  end.

(** [newError] of the package. *)
Inductive HTTPError := newError (msg : string).

Inductive Body :=
| JSONError (e : HTTPError)   (* render.JSON(w, r, e) *)
| Raw (b : list byte)         (* w.Write(b) *)
| NoBody.                     (* render.NoContent(w, r) *)

Record Response := {
  Status : Z;
  Content : Body
}.

Definition StatusOK : Z := 200.
Definition StatusNoContent : Z := 204.
Definition StatusNotFound : Z := 404.
Definition StatusInternalServerError : Z := 500.

(** A handler runs on the request context, with the names of the rule sets
    updated so far, oldest first. *)
Definition Handler := Context -> list string -> option (list string * Response).

Section ClashAPI.

(** [F.ToString], [strings.ToUpper], [time.Time.Format] and
    [JSONObject.MarshalJSON] come from libraries; [ErrNotFound] is declared
    elsewhere in the package. *)
Variable ToString : nat -> string.
Variable ToUpper : string -> string.
Variable time_Format : Time -> string -> string.
Variable MarshalJSON : JSONObject -> list byte * option error.
Variable ErrNotFound : HTTPError.

Definition ruleProviderInfo (ruleSet : adapterRuleSet) : JSONObject :=
  let info := [] in
  let info := Put "name" (JString (Name ruleSet)) info in
  let info := Put "type" (JString "Rule") info in
  let info := Put "vehicleType" (JString (ToUpper (RuleSet_Type ruleSet))) info in
  let metadata := Metadata ruleSet in
  let info := Put "format" (JString (ToUpper (Format metadata))) info in
  let info := Put "behavior" (JString (ToUpper (Format metadata))) info in
  let info := Put "ruleCount" (JInt (RuleCount ruleSet)) info in
  Put "updatedAt" (JString (time_Format (LastUpdated metadata) updatedAt_layout)) info.

(** The key under which [getRuleProviders] lists the rule set at index [i]. *)
Definition provider_tag (i : nat) (ruleSet : adapterRuleSet) : string :=
  if String.eqb (Name ruleSet) EmptyString then ToString i else Name ruleSet.

(** [getRuleProviders]: the map rendered under "providers". *)
Definition getRuleProviders (router : Router) : M JSONObject :=
  fold_left
    (fun providerMap e =>
       M_set (provider_tag (fst e) (snd e)) (ruleProviderInfo (snd e)) providerMap)
    (combine (seq 0 (length (RuleSets router))) (RuleSets router))
    [].

Definition getRuleProvider : Handler :=
  fun ctx updated =>
    match Value ctx CtxKeyProvider with
    | Some (CtxRuleSet ruleSet) =>
        let '(response, err) := MarshalJSON (ruleProviderInfo ruleSet) in
        match err with
        | Some e =>
            Some (updated, {| Status := StatusInternalServerError;
                              Content := JSONError (newError e) |})
        | None => Some (updated, {| Status := StatusOK; Content := Raw response |})
        end
    | _ => None
    end.

Definition updateRuleProvider : Handler :=
  fun ctx updated =>
    match Value ctx CtxKeyProvider with
    | Some (CtxRuleSet ruleSet) =>
        let updated := updated ++ [Name ruleSet] in
        match Update ruleSet with
        | Some e =>
            Some (updated, {| Status := StatusInternalServerError;
                              Content := JSONError (newError e) |})
        | None => Some (updated, {| Status := StatusNoContent; Content := NoBody |})
        end
    | _ => None
    end.

Definition findRuleProviderByName (router : Router) (next : Handler) : Handler :=
  fun ctx updated =>
    match Value ctx CtxKeyProviderName with
    | Some (CtxString name) =>
        match RuleSet router name with
        | None =>
            Some (updated, {| Status := StatusNotFound;
                              Content := JSONError ErrNotFound |})
        | Some provider => next (WithValue ctx CtxKeyProvider (CtxRuleSet provider)) updated
        end
    | _ => None
    end.

End ClashAPI.

(** ** Inputs of the worked runs of the extras *)

Definition zero_packet : list byte := [Byte.x00].

Definition sample_rule (text target : string) : adapterRule :=
  {| Rule_String := text; Rule_Outbound := target; Rule_Action := target |}.

Definition direct_out : adapterOutbound :=
  {| outbound_addr := 1; Tag := "direct" |}.

Definition geoip_set : adapterRuleSet :=
  {| Name := "geoip"; RuleSet_Type := "remote";
     Metadata := {| Format := "binary"; LastUpdated := 0%Z |};
     RuleCount := 12; Update := None |}.

Definition unnamed_set : adapterRuleSet :=
  {| Name := EmptyString; RuleSet_Type := "local";
     Metadata := {| Format := "source"; LastUpdated := 0%Z |};
     RuleCount := 3; Update := Some "fetch failed"%string |}.

Definition sample_router : Router :=
  {| DNSRules := [sample_rule "domain=example.org" "local"];
     DefaultDNSServer := "local";
     Rules := [sample_rule "port=53" "dns-out"];
     DefaultOutbound := fun _ => Some direct_out;
     RuleSets := [geoip_set; unnamed_set];
     RuleSet := fun name => if String.eqb name "geoip" then Some geoip_set else None |}.

(** A stand-in for [F.ToString] on small indices. *)
Definition decimal_digit (n : nat) : string :=
  String (Ascii.ascii_of_nat (48 + n)) EmptyString.

Definition named_request : Context := [(CtxKeyProviderName, CtxString "geoip")].

(** ** Facts about one race *)

Lemma existsb_eqb_In (i : nat) (l : list nat) :
  existsb (Nat.eqb i) l = true <-> In i l.
Proof.
  rewrite existsb_exists. split.
  - intros (x & Hx & E). apply Nat.eqb_eq in E. now subst.
  - intros H. exists i. split; [assumption | apply Nat.eqb_refl].
Qed.

Lemma remove_perm (x : nat) (l : list nat) :
  NoDup l -> In x l -> Permutation (x :: remove Nat.eq_dec x l) l.
Proof.
  induction l as [|a l IH]; intros ND Hin; [contradiction|].
  inversion ND as [|? ? Ha ND']; subst. simpl.
  destruct (Nat.eq_dec x a) as [->|Hne].
  - rewrite notin_remove by assumption. reflexivity.
  - destruct Hin as [->|Hin]; [congruence|].
    rewrite perm_swap. constructor. now apply IH.
Qed.

Lemma perm_seq_parts (l p : list nat) (n : nat) :
  Permutation (l ++ p) (seq 0 n) ->
  NoDup p /\ NoDup l /\ (forall x, In x (l ++ p) -> x < n) /\ length l + length p = n.
Proof.
  intros HP.
  assert (ND : NoDup (l ++ p)).
  { apply Permutation_NoDup with (seq 0 n); [now symmetry | apply seq_NoDup]. }
  repeat split.
  - now apply NoDup_app_remove_l in ND.
  - now apply NoDup_app_remove_r in ND.
  - intros x Hx.
    assert (In x (seq 0 n)) as Hs by (eapply Permutation_in; eassumption).
    apply in_seq in Hs. lia.
  - apply Permutation_length in HP. rewrite length_app, length_seq in HP. exact HP.
Qed.

(** Taking the entry of goroutine [i] out of the results held. *)
Lemma ready_take (l : list (nat * option error)) (i : nat) (e : nat * option error) :
  NoDup (map fst l) -> find (holds i) l = Some e ->
  Permutation l (e :: filter (fun e => negb (holds i e)) l).
Proof.
  induction l as [|a l IH]; intros ND Hf; [discriminate|].
  simpl in ND. inversion ND as [|? ? Ha ND']; subst. simpl in Hf |- *.
  destruct (holds i a) eqn:Ha'; simpl.
  - inversion Hf; subst. constructor.
    assert (Hid : filter (fun e0 => negb (holds i e0)) l = l).
    { apply forallb_filter_id. apply forallb_forall. intros x Hx.
      destruct (holds i x) eqn:Hx'; [|reflexivity]. exfalso. apply Ha.
      unfold holds in *. apply Nat.eqb_eq in Ha', Hx'.
      rewrite Ha', <- Hx'. now apply in_map. }
    now rewrite Hid.
  - rewrite perm_swap. constructor. now apply IH.
Qed.

Lemma ready_gone (l : list (nat * option error)) (i : nat) :
  ~ In i (map fst (filter (fun e => negb (holds i e)) l)).
Proof.
  intros Hin. apply in_map_iff in Hin. destruct Hin as (e & He & Hin).
  apply filter_In in Hin. destruct Hin as [_ Hn]. unfold holds in Hn.
  rewrite He, Nat.eqb_refl in Hn. discriminate.
Qed.

Lemma find_holds_none (l : list (nat * option error)) (i : nat) :
  find (holds i) l = None -> ~ In i (map fst l).
Proof.
  intros Hf Hin. apply in_map_iff in Hin. destruct Hin as (e & He & Hin).
  apply (find_none _ _ Hf) in Hin. unfold holds in Hin.
  rewrite He, Nat.eqb_refl in Hin. discriminate.
Qed.

Lemma launch_inv (tasks : list Task) (m0 : InboundContext) (errs0 : list error) :
  race_inv tasks m0 errs0 (launch m0 errs0 (length tasks)).
Proof.
  split.
  - constructor; simpl; [reflexivity | discriminate | constructor].
  - exists []. split; simpl; [now rewrite app_nil_r|]. exists []. split; reflexivity.
Qed.

(** The channel never holds more than was sent: with a goroutine still to
    send there is room for it. *)
Lemma room tasks m0 errs0 r taken recv :
  race_wf tasks m0 r -> accounts errs0 r taken recv ->
  length (chan r) + length (ready r) + length (pending r) <= length tasks.
Proof.
  intros [HP _ _] (_ & sent & Hd & Hs).
  apply perm_seq_parts in HP. destruct HP as (_ & _ & _ & HL).
  apply Permutation_length in Hd. apply (f_equal (@length _)) in Hs.
  rewrite length_app in Hd. rewrite length_app, length_map in Hs.
  rewrite length_map in HL. lia.
Qed.

Lemma held_are_done errs0 r taken recv :
  accounts errs0 r taken recv -> incl (ready r) (done r).
Proof.
  intros (_ & sent & Hd & _) e He.
  eapply Permutation_in; [symmetry; exact Hd|]. apply in_or_app. now left.
Qed.

Lemma held_nodup tasks m0 errs0 r taken recv :
  race_wf tasks m0 r -> accounts errs0 r taken recv -> NoDup (map fst (ready r)).
Proof.
  intros [HP _ _] (_ & sent & Hd & _).
  apply perm_seq_parts in HP. destruct HP as (_ & ND & _ & _).
  apply (Permutation_map fst) in Hd. rewrite map_app in Hd.
  apply (Permutation_NoDup Hd) in ND. now apply NoDup_app_remove_r in ND.
Qed.

Lemma run_wf tasks m0 i r :
  race_wf tasks m0 r -> race_wf tasks m0 (run tasks i r).
Proof.
  intros W. unfold run.
  destruct (existsb (Nat.eqb i) (pending r)) eqn:En; [|assumption].
  apply existsb_eqb_In in En.
  destruct (nth_error tasks i) as [t|] eqn:Ht; [|assumption].
  destruct (t (meta r)) as [m res] eqn:Hrun.
  destruct W as [HP Hcl HR]. constructor; simpl.
  - rewrite map_app. simpl. rewrite <- app_assoc. simpl.
    rewrite <- HP. apply Permutation_app_head.
    apply remove_perm; [|assumption].
    apply perm_seq_parts in HP. tauto.
  - intros Hc. destruct (Hcl Hc) as [Hp _]. rewrite Hp in En. contradiction.
  - econstructor; eassumption.
Qed.

Lemma run_accounts tasks errs0 i r taken recv :
  accounts errs0 r taken recv -> accounts errs0 (run tasks i r) taken recv.
Proof.
  intros A. unfold run.
  destruct (existsb (Nat.eqb i) (pending r)); [|assumption].
  destruct (nth_error tasks i) as [t|]; [|assumption].
  destruct (t (meta r)) as [m res].
  destruct A as (HE & sent & Hd & Hs). split; simpl; [assumption|].
  exists sent. split; [|assumption].
  rewrite <- app_assoc. simpl.
  apply Permutation_trans with ((i, res) :: done r);
    [symmetry; apply Permutation_cons_append|].
  apply Permutation_trans with ((i, res) :: ready r ++ sent);
    [now constructor | apply Permutation_middle].
Qed.

(** A goroutine that has not called its sniffer can always do so. *)
Lemma run_pending tasks m0 i r :
  race_wf tasks m0 r ->
  pending (run tasks i r) = remove Nat.eq_dec i (pending r).
Proof.
  intros [HP _ _]. apply perm_seq_parts in HP. destruct HP as (_ & _ & Hlt & _).
  unfold run. destruct (existsb (Nat.eqb i) (pending r)) eqn:En.
  - apply existsb_eqb_In in En.
    destruct (nth_error tasks i) as [t|] eqn:Ht.
    + destruct (t (meta r)). reflexivity.
    + apply nth_error_None in Ht.
      assert (i < length tasks) by (apply Hlt, in_or_app; now right). lia.
  - symmetry. apply notin_remove. intros Hin. apply existsb_eqb_In in Hin. congruence.
Qed.

Lemma send_wf tasks m0 cap i r :
  race_wf tasks m0 r -> race_wf tasks m0 (send cap i r).
Proof.
  intros W. unfold send.
  destruct (find (holds i) (ready r)) as [e|] eqn:Hf; [|assumption].
  destruct (length (chan r) <? cap); [|assumption].
  destruct W as [HP Hcl HR]. constructor; simpl; try assumption.
  intros Hc. destruct (Hcl Hc) as [Hp Hr]. rewrite Hr in Hf. discriminate.
Qed.

Lemma send_accounts tasks m0 errs0 cap i r taken recv :
  race_wf tasks m0 r ->
  accounts errs0 r taken recv -> accounts errs0 (send cap i r) taken recv.
Proof.
  intros W A. pose proof (held_nodup W A) as ND. unfold send.
  destruct (find (holds i) (ready r)) as [e|] eqn:Hf; [|assumption].
  destruct (length (chan r) <? cap); [|assumption].
  destruct A as (HE & sent & Hd & Hs). split; simpl; [assumption|].
  exists (sent ++ [e]). split.
  - apply Permutation_trans with (ready r ++ sent); [assumption|].
    apply Permutation_trans
      with ((e :: filter (fun e0 => negb (holds i e0)) (ready r)) ++ sent).
    + apply Permutation_app_tail. now apply ready_take.
    + rewrite app_assoc. simpl.
      apply Permutation_trans
        with (e :: (filter (fun e0 => negb (holds i e0)) (ready r) ++ sent));
        [reflexivity | apply Permutation_cons_append].
  - rewrite map_app, Hs, <- app_assoc. reflexivity.
Qed.

(** A goroutine that holds a result can always send it. *)
Lemma send_gone tasks m0 errs0 i r taken recv :
  race_wf tasks m0 r -> accounts errs0 r taken recv ->
  ~ In i (map fst (ready (send (length tasks) i r))) /\
  incl (ready (send (length tasks) i r)) (ready r) /\
  pending (send (length tasks) i r) = pending r.
Proof.
  intros W A. pose proof (room W A) as Hroom. unfold send.
  destruct (find (holds i) (ready r)) as [e|] eqn:Hf.
  - assert (length (ready r) > 0) by (destruct (ready r); [discriminate | simpl; lia]).
    assert (Hc : (length (chan r) <? length tasks) = true) by (apply Nat.ltb_lt; lia).
    rewrite Hc. simpl. split; [apply ready_gone|]. split; [|reflexivity].
    intros x Hx. apply filter_In in Hx. tauto.
  - split; [now apply find_holds_none|]. split; [apply incl_refl | reflexivity].
Qed.

Lemma close_wf tasks m0 r : race_wf tasks m0 r -> race_wf tasks m0 (close r).
Proof.
  intros W. unfold close.
  destruct (pending r) eqn:Hp; [|assumption]. destruct (ready r) eqn:Hr; [|assumption].
  destruct W as [HP Hcl HR]. constructor; simpl; try assumption.
  - now rewrite Hp in HP.
  - auto.
Qed.

Lemma close_accounts errs0 r taken recv :
  accounts errs0 r taken recv -> accounts errs0 (close r) taken recv.
Proof.
  intros A. unfold close.
  destruct (pending r) eqn:Hp; [|assumption]. destruct (ready r) eqn:Hr; [|assumption].
  destruct A as (HE & sent & Hd & Hs). split; simpl; [assumption|].
  exists sent. rewrite Hr in Hd. auto.
Qed.

Lemma run_inv tasks m0 errs0 i r :
  race_inv tasks m0 errs0 r -> race_inv tasks m0 errs0 (run tasks i r).
Proof.
  intros (W & recv & A). split; [now apply run_wf|].
  exists recv. now apply run_accounts.
Qed.

Lemma send_inv tasks m0 errs0 cap i r :
  race_inv tasks m0 errs0 r -> race_inv tasks m0 errs0 (send cap i r).
Proof.
  intros (W & recv & A). split; [now apply send_wf|].
  exists recv. eapply send_accounts; eassumption.
Qed.

Lemma close_inv tasks m0 errs0 r :
  race_inv tasks m0 errs0 r -> race_inv tasks m0 errs0 (close r).
Proof.
  intros (W & recv & A). split; [now apply close_wf|].
  exists recv. now apply close_accounts.
Qed.

Lemma recv_inv tasks m0 errs0 r err q :
  race_inv tasks m0 errs0 r -> chan r = Some err :: q ->
  race_inv tasks m0 errs0
    {| meta := meta r; pending := pending r; ready := ready r; chan := q;
       closed := closed r; errors := errors r ++ [err]; done := done r |}.
Proof.
  intros ([HP Hcl HR] & recv & HE & sent & Hd & Hs) Hq. split.
  - constructor; simpl; assumption.
  - exists (recv ++ [err]). split; simpl.
    + rewrite HE. now rewrite app_assoc.
    + exists sent. split; [assumption|].
      rewrite Hs, Hq, map_app. simpl. now rewrite <- app_assoc.
Qed.

Lemma race_sound tasks m0 errs0 sched :
  forall r v r',
    race_inv tasks m0 errs0 r ->
    race tasks (length tasks) sched r = Some (v, r') ->
    race_post tasks m0 errs0 v r'.
Proof.
  induction sched as [|a sched IH]; intros r v r' I H; simpl in H; [discriminate|].
  destruct a as [i|i| |].
  - eapply IH; [|exact H]. now apply run_inv.
  - eapply IH; [|exact H]. now apply send_inv.
  - eapply IH; [|exact H]. now apply close_inv.
  - destruct (chan r) as [|[err|] q] eqn:Hq.
    + destruct (closed r) eqn:Hc.
      * inversion H; subst. destruct I as (W & recv & A). split; [assumption|].
        exists recv. destruct (wf_closed W Hc) as [Hp Hr]. auto.
      * eapply IH; eassumption.
    + eapply IH; [|exact H]. now apply recv_inv.
    + inversion H; subst.
      destruct I as ([HP Hcl HR] & recv & HE & sent & Hd & Hs). split.
      * constructor; simpl; assumption.
      * exists recv. split; simpl; [assumption|]. exists sent. split; [assumption|].
        rewrite Hs, Hq, <- app_assoc. reflexivity.
Qed.

Lemma race_runs tasks cap order rest r :
  race tasks cap (map Run order ++ rest) r =
  race tasks cap rest (background tasks cap (map Run order) r).
Proof.
  revert r. induction order as [|i order IH]; intros r; simpl; [reflexivity | apply IH].
Qed.

Lemma race_sends tasks cap order rest r :
  race tasks cap (map Send order ++ rest) r =
  race tasks cap rest (background tasks cap (map Send order) r).
Proof.
  revert r. induction order as [|i order IH]; intros r; simpl; [reflexivity | apply IH].
Qed.

Lemma background_app tasks cap s1 s2 r :
  background tasks cap (s1 ++ s2) r =
  background tasks cap s2 (background tasks cap s1 r).
Proof.
  revert r. induction s1 as [|a s1 IH]; intros r; [reflexivity|].
  destruct a; simpl; apply IH.
Qed.

Lemma runs_props tasks m0 errs0 taken recv order :
  forall r, race_wf tasks m0 r -> accounts errs0 r taken recv ->
    race_wf tasks m0 (background tasks (length tasks) (map Run order) r) /\
    accounts errs0 (background tasks (length tasks) (map Run order) r) taken recv /\
    forall x, In x (pending (background tasks (length tasks) (map Run order) r)) ->
              In x (pending r) /\ ~ In x order.
Proof.
  induction order as [|i order IH]; intros r W A; simpl.
  - split; [assumption|]. split; [assumption|]. intros x Hx. tauto.
  - destruct (IH _ (run_wf i W) (run_accounts tasks i A)) as (W' & A' & Hsub).
    split; [assumption|]. split; [assumption|]. intros x Hx.
    apply Hsub in Hx. destruct Hx as [Hx Hn].
    rewrite (run_pending i W) in Hx. apply in_remove in Hx. destruct Hx as [Hx Hne].
    split; [assumption|]. intros [->|Hin]; [congruence | contradiction].
Qed.

Lemma sends_props tasks m0 errs0 taken recv order :
  forall r, race_wf tasks m0 r -> accounts errs0 r taken recv ->
    race_wf tasks m0 (background tasks (length tasks) (map Send order) r) /\
    accounts errs0 (background tasks (length tasks) (map Send order) r) taken recv /\
    pending (background tasks (length tasks) (map Send order) r) = pending r /\
    forall e, In e (ready (background tasks (length tasks) (map Send order) r)) ->
              In e (ready r) /\ ~ In (fst e) order.
Proof.
  induction order as [|i order IH]; intros r W A; simpl.
  - split; [assumption|]. split; [assumption|]. split; [reflexivity|].
    intros e He. tauto.
  - destruct (IH _ (send_wf (length tasks) i W) (send_accounts (length tasks) i W A))
      as (W' & A' & Hp & Hsub).
    destruct (send_gone i W A) as (Hgone & Hincl & Hpend).
    split; [assumption|]. split; [assumption|]. split; [now rewrite Hp|].
    intros e He. apply Hsub in He. destruct He as [He Hn].
    split; [now apply Hincl|]. intros [E|Hin]; [|contradiction].
    apply Hgone. apply in_map_iff. exists e. split; [now symmetry | exact He].
Qed.

(** Left to themselves the goroutines all finish: no send is ever held up. *)
Lemma settle_finishes tasks m0 errs0 taken recv r :
  race_wf tasks m0 r -> accounts errs0 r taken recv ->
  race_wf tasks m0 (background tasks (length tasks) (settle (length tasks)) r) /\
  accounts errs0 (background tasks (length tasks) (settle (length tasks)) r) taken recv /\
  unfinished (background tasks (length tasks) (settle (length tasks)) r) = [].
Proof.
  intros W A. unfold settle. rewrite background_app.
  destruct (runs_props (seq 0 (length tasks)) W A) as (W1 & A1 & Hsub1).
  set (r1 := background tasks (length tasks) (map Run (seq 0 (length tasks))) r) in *.
  destruct (sends_props (seq 0 (length tasks)) W1 A1) as (W2 & A2 & Hp2 & Hsub2).
  set (r2 := background tasks (length tasks) (map Send (seq 0 (length tasks))) r1) in *.
  split; [assumption|]. split; [assumption|].
  assert (Hp1 : pending r1 = []).
  { destruct (pending r1) as [|x l] eqn:E; [reflexivity|]. exfalso.
    destruct (Hsub1 x (or_introl eq_refl)) as [Hx Hn]. apply Hn, in_seq.
    destruct W as [HP _ _]. apply perm_seq_parts in HP.
    destruct HP as (_ & _ & Hlt & _).
    assert (x < length tasks) by (apply Hlt, in_or_app; now right). lia. }
  assert (Hr2 : ready r2 = []).
  { destruct (ready r2) as [|e l] eqn:E; [reflexivity|]. exfalso.
    destruct (Hsub2 e (or_introl eq_refl)) as [He Hn]. apply Hn, in_seq.
    destruct W1 as [HP _ _]. apply perm_seq_parts in HP.
    destruct HP as (_ & _ & Hlt & _).
    assert (fst e < length tasks).
    { apply Hlt, in_or_app. left. apply in_map. eapply held_are_done; eassumption. }
    lia. }
  unfold unfinished. rewrite Hp2, Hp1, Hr2. reflexivity.
Qed.

Lemma recv_closed tasks cap k :
  forall r, closed r = true -> length (chan r) < k ->
    exists v r', race tasks cap (repeat Recv k) r = Some (v, r').
Proof.
  induction k as [|k IH]; intros r Hc Hl; [lia|]. simpl.
  destruct (chan r) as [|[err|] q] eqn:Hq.
  - rewrite Hc. eauto.
  - apply IH; simpl; [assumption | simpl in Hl; lia].
  - eauto.
Qed.

Lemma drain_total tasks m0 errs0 r :
  race_inv tasks m0 errs0 r ->
  exists v r', race tasks (length tasks) (drain (length tasks)) r = Some (v, r').
Proof.
  intros (W & recv & A). unfold drain, settle.
  rewrite <- app_assoc, race_runs, race_sends, <- background_app.
  fold (settle (length tasks)).
  destruct (settle_finishes W A) as (W' & A' & Hu).
  set (r1 := background tasks (length tasks) (settle (length tasks)) r) in *.
  pose proof (room W' A') as Hroom.
  unfold unfinished in Hu. apply app_eq_nil in Hu. destruct Hu as [Hp Hr].
  apply map_eq_nil in Hr.
  simpl. unfold close. rewrite Hp, Hr.
  rewrite Hp, Hr in Hroom.
  destruct (chan r1) as [|[err|] q] eqn:Hq; simpl; try rewrite Hq.
  - eauto.
  - apply recv_closed; simpl; [reflexivity | simpl in Hroom; lia].
  - eauto.
Qed.

(** Under a fair schedule the collector always leaves its loop. *)
Lemma race_total tasks m0 errs0 s0 :
  forall r, race_inv tasks m0 errs0 r ->
    exists v r', race tasks (length tasks) (s0 ++ drain (length tasks)) r = Some (v, r').
Proof.
  induction s0 as [|a s0 IH]; intros r I.
  - now apply drain_total with (m0 := m0) (errs0 := errs0).
  - simpl. destruct a as [i|i| |].
    + apply IH. now apply run_inv.
    + apply IH. now apply send_inv.
    + apply IH. now apply close_inv.
    + destruct (chan r) as [|[err|] q] eqn:Hq.
      * destruct (closed r); [eauto | now apply IH].
      * apply IH. now apply recv_inv.
      * eauto.
Qed.

(** ** Facts about returned sniffer calls *)

Lemma Ran_origin tasks m0 log m :
  Ran tasks m0 log m ->
  forall i res, In (i, res) log ->
    exists t m1, nth_error tasks i = Some t /\ snd (t m1) = res.
Proof.
  induction 1 as [|log m i t m' res HR IH Ht Hrun]; intros j res' Hin; [contradiction|].
  apply in_app_or in Hin. destruct Hin as [Hin|[E|[]]].
  - now apply IH.
  - inversion E; subst. exists t, m. split; [assumption|]. now rewrite Hrun.
Qed.

Lemma Ran_quiet tasks m0 log m :
  (forall t, In t tasks -> forall m1, snd (t m1) <> None -> fst (t m1) = m1) ->
  Ran tasks m0 log m ->
  (forall e, In e log -> snd e <> None) ->
  m = m0.
Proof.
  intros Hq. induction 1 as [|log m i t m' res HR IH Ht Hrun]; intros Herr; [reflexivity|].
  assert (Hres : res <> None).
  { apply (Herr (i, res)). apply in_or_app. right. now left. }
  apply nth_error_In in Ht. specialize (Hq t Ht m). rewrite Hrun in Hq. simpl in Hq.
  rewrite (Hq Hres). apply IH. intros e He. apply Herr. apply in_or_app. now left.
Qed.

Lemma last_match_snoc log i res :
  last_match (log ++ [(i, res)]) =
  match res with None => Some i | Some _ => last_match log end.
Proof. unfold last_match. rewrite fold_left_app. reflexivity. Qed.

Lemma matches_app l1 l2 : matches (l1 ++ l2) = matches l1 + matches l2.
Proof. unfold matches. now rewrite filter_app, length_app. Qed.

Lemma matches_none (log : list (nat * option error)) :
  (forall e, In e log -> snd e <> None) -> matches log = 0.
Proof.
  induction log as [|[i res] log IH]; intros H; [reflexivity|].
  unfold matches in *. simpl. destruct res as [e|].
  - apply IH. intros x Hx. apply H. now right.
  - exfalso. apply (H (i, None)); [now left | reflexivity].
Qed.

Lemma matches_some (log : list (nat * option error)) :
  In None (map snd log) -> 1 <= matches log.
Proof.
  induction log as [|[i res] log IH]; intros H; [contradiction|].
  unfold matches in *. simpl. destruct res as [e|]; simpl.
  - destruct H as [H|H]; [discriminate | now apply IH].
  - lia.
Qed.

Lemma errors_only (log : list (nat * option error)) (recv : list error) :
  Permutation (map snd log) (map Some recv) -> forall e, In e log -> snd e <> None.
Proof.
  intros H e He Hn. apply in_map with (f := snd) in He. rewrite Hn in He.
  apply (Permutation_in _ H) in He.
  apply in_map_iff in He. destruct He as (x & Hx & _). discriminate.
Qed.

Lemma nth_error_tasks_of sniffers view i t :
  nth_error (tasks_of sniffers view) i = Some t ->
  exists sn, nth_error sniffers i = Some sn /\ t = fun m => sn m view.
Proof.
  unfold tasks_of. rewrite nth_error_map.
  destruct (nth_error sniffers i) as [sn|]; simpl; intros H; inversion H.
  eauto.
Qed.

Lemma length_tasks_of sniffers view : length (tasks_of sniffers view) = length sniffers.
Proof. unfold tasks_of. apply length_map. Qed.

(** When the collector leaves through the closed channel, every goroutine
    has finished and every result is among the reasons collected. *)
Lemma drained_results tasks m0 errs0 r :
  race_post tasks m0 errs0 Drained r ->
  unfinished r = [] /\
  Permutation (map fst (done r)) (seq 0 (length tasks)) /\
  Ran tasks m0 (done r) (meta r) /\
  exists recv, errors r = errs0 ++ recv /\
               Permutation (map snd (done r)) (map Some recv).
Proof.
  intros ([HP _ HR] & recv & (HE & sent & Hd & Hs) & Hp & Hr & Hc).
  unfold unfinished. rewrite Hp, Hr in *. rewrite app_nil_r in HP.
  repeat split; try assumption.
  exists recv. split; [assumption|].
  rewrite Hc, app_nil_r in Hs. rewrite <- Hs. simpl in Hd. now apply Permutation_map.
Qed.

(** When the collector leaves on a nil, some sniffer call returned nil. *)
Lemma matched_result tasks m0 errs0 r :
  race_post tasks m0 errs0 Match r ->
  Ran tasks m0 (done r) (meta r) /\
  NoDup (map fst (done r)) /\
  In None (map snd (done r)).
Proof.
  intros ([HP _ HR] & recv & (HE & sent & Hd & Hs)).
  split; [assumption|]. split.
  - apply perm_seq_parts in HP. tauto.
  - apply (Permutation_map snd) in Hd. rewrite map_app, Hs in Hd.
    eapply Permutation_in; [symmetry; exact Hd|].
    apply in_or_app. right. apply in_or_app. left. apply in_or_app. right. now left.
Qed.

(** With no sniffer matching, the collector can only leave through the
    closed channel. *)
Lemma race_post_no_match sniffers view m0 errs0 v r :
  no_match sniffers view ->
  race_post (tasks_of sniffers view) m0 errs0 v r -> v = Drained.
Proof.
  intros Hno Hpost. destruct v; [|reflexivity]. exfalso.
  destruct (matched_result Hpost) as (HR & _ & Hin).
  apply in_map_iff in Hin. destruct Hin as ([i res] & Hres & Hin). simpl in Hres. subst.
  destruct (Ran_origin HR _ _ Hin) as (t & m1 & Ht & Hrun).
  apply nth_error_tasks_of in Ht. destruct Ht as (sn & Hsn & ->).
  apply nth_error_In in Hsn. exact (Hno sn Hsn m1 Hrun).
Qed.

(** With a sniffer that matches, the collector can only leave on a nil. *)
Lemma race_post_some_match sniffers view m0 errs0 v r i sn :
  nth_error sniffers i = Some sn ->
  (forall m, snd (sn m view) = None) ->
  race_post (tasks_of sniffers view) m0 errs0 v r -> v = Match.
Proof.
  intros Hsn Hm Hpost. destruct v; [reflexivity|]. exfalso.
  destruct (drained_results Hpost) as (_ & HP & HR & recv & _ & Hd).
  assert (Hi : In i (map fst (done r))).
  { eapply Permutation_in; [symmetry; exact HP|]. apply in_seq.
    rewrite length_tasks_of.
    assert (i < length sniffers) by (apply nth_error_Some; rewrite Hsn; discriminate).
    lia. }
  apply in_map_iff in Hi. destruct Hi as ([j res] & Hj & Hin). simpl in Hj. subst j.
  destruct (Ran_origin HR _ _ Hin) as (t & m1 & Ht & Hrun).
  apply nth_error_tasks_of in Ht. destruct Ht as (sn' & Hsn' & ->).
  assert (sn' = sn) by congruence. subst sn'.
  rewrite Hm in Hrun. subst res.
  eapply errors_only; [exact Hd | exact Hin | reflexivity].
Qed.

(** ** Facts about the connection *)

Lemma nth_tl {A} (l : list A) (j : nat) (d : A) : nth j (tl l) d = nth (S j) l d.
Proof. destruct l; destruct j; reflexivity. Qed.

Lemma after_round_fields deadline conn :
  deadline_results (after_round deadline conn) = tl (tl (deadline_results conn)) /\
  reads (after_round deadline conn) = tl (reads conn) /\
  calls (after_round deadline conn) = calls conn ++ block deadline.
Proof.
  unfold after_round, ReadOnceFrom, SetReadDeadline. simpl.
  destruct (reads conn); simpl; rewrite <- !app_assoc; auto.
Qed.

Lemma after_rounds_fields deadline k :
  forall conn,
    (forall j, nth j (deadline_results (after_rounds deadline k conn)) None =
               nth (2 * k + j) (deadline_results conn) None) /\
    reads (after_rounds deadline k conn) = skipn k (reads conn) /\
    calls (after_rounds deadline k conn) =
      calls conn ++ concat (repeat (block deadline) k).
Proof.
  induction k as [|k IH]; intros conn; simpl.
  - repeat split. now rewrite app_nil_r.
  - destruct (IH (after_round deadline conn)) as (Hd & Hr & Hc).
    destruct (after_round_fields deadline conn) as (Fd & Fr & Fc).
    repeat split.
    + intros j. rewrite Hd, Fd, !nth_tl. f_equal. lia.
    + rewrite Hr, Fr. destruct (reads conn); [now rewrite skipn_nil | reflexivity].
    + rewrite Hc, Fc, <- app_assoc. reflexivity.
Qed.

Lemma arms_ok_step deadline k conn :
  arms_ok (S k) conn ->
  nth 0 (deadline_results conn) None = None /\ arms_ok k (after_round deadline conn).
Proof.
  intros H. split.
  - apply (H 0). lia.
  - intros j Hj. destruct (after_round_fields deadline conn) as (Fd & _ & _).
    rewrite Fd, !nth_tl. specialize (H (S j)).
    replace (S (S (2 * j))) with (2 * S j) by lia. apply H. lia.
Qed.

Lemma reads_made_app l1 l2 : reads_made (l1 ++ l2) = reads_made l1 + reads_made l2.
Proof. unfold reads_made. now rewrite filter_app, length_app. Qed.

Lemma reads_made_blocks deadline k :
  reads_made (concat (repeat (block deadline) k)) = k.
Proof.
  induction k as [|k IH]; [reflexivity|].
  change (concat (repeat (block deadline) (S k)))
    with (block deadline ++ concat (repeat (block deadline) k)).
  rewrite reads_made_app, IH. reflexivity.
Qed.

(** ** Facts about the loop of PeekStream *)

Lemma loop_eq deadline sniffers scheds i conn metadata buffer errs hist :
  PeekStream_loop deadline sniffers scheds i conn metadata buffer errs hist =
  match next_arm conn with
  | Some err =>
      Some {| ret := RetCause err "set read deadline";
              conn_end := fst (SetReadDeadline deadline conn);
              meta_end := metadata; buffer_end := buffer;
              running := []; history := hist |}
  | None =>
      match next_failure conn with
      | Some err =>
          if 0 <? i then
            Some {| ret := RetErrors errs; conn_end := after_round deadline conn;
                    meta_end := metadata; buffer_end := buffer ++ next_data conn;
                    running := []; history := hist |}
          else
            Some {| ret := RetCause err "read payload";
                    conn_end := after_round deadline conn;
                    meta_end := metadata; buffer_end := buffer ++ next_data conn;
                    running := []; history := hist |}
      | None =>
          match scheds with
          | [] => None
          | sched :: scheds' =>
              match race (tasks_of sniffers (buffer ++ next_data conn))
                         (length sniffers) sched
                         (launch metadata errs (length sniffers)) with
              | None => None
              | Some (Match, r) =>
                  Some {| ret := RetNil; conn_end := after_round deadline conn;
                          meta_end := meta r;
                          buffer_end := buffer ++ next_data conn;
                          running := unfinished r; history := hist ++ [done r] |}
              | Some (Drained, r) =>
                  PeekStream_loop deadline sniffers scheds' (S i)
                                  (after_round deadline conn) (meta r)
                                  (buffer ++ next_data conn) (errors r)
                                  (hist ++ [done r])
              end
          end
      end
  end.
Proof.
  unfold next_arm, next_failure, next_data, after_round, tasks_of.
  destruct scheds as [|sched scheds']; simpl;
    unfold SetReadDeadline, ReadOnceFrom; simpl;
    destruct (deadline_results conn) as [|[e|] dr]; simpl; try reflexivity;
    destruct (reads conn) as [|s rs]; simpl; try reflexivity;
    destruct (failure s); reflexivity.
Qed.

Lemma next_read_cons conn s rest :
  reads conn = s :: rest -> next_failure conn = failure s /\ next_data conn = data s.
Proof. intros H. unfold next_failure, next_data, ReadOnceFrom. now rewrite H. Qed.

(** A race started by [PeekStream] or [PeekPacket] under a fair schedule. *)
Lemma race_round sniffers view sched m errs :
  fair (length sniffers) sched ->
  exists v r,
    race (tasks_of sniffers view) (length sniffers) sched
         (launch m errs (length sniffers)) = Some (v, r) /\
    race_post (tasks_of sniffers view) m errs v r.
Proof.
  intros (s0 & ->).
  assert (L : length sniffers = length (tasks_of sniffers view))
    by (unfold tasks_of; now rewrite length_map).
  rewrite L.
  pose proof (launch_inv (tasks_of sniffers view) m errs) as I.
  destruct (race_total s0 I) as (v & r & H).
  exists v, r. split; [exact H|]. eapply race_sound; eassumption.
Qed.

Lemma round_inconclusive deadline sniffers sched scheds i conn metadata buffer errs hist :
  next_arm conn = None ->
  next_failure conn = None ->
  fair (length sniffers) sched ->
  no_match sniffers (buffer ++ next_data conn) ->
  exists m' recv log,
    PeekStream_loop deadline sniffers (sched :: scheds) i conn metadata buffer errs hist =
    PeekStream_loop deadline sniffers scheds (S i) (after_round deadline conn) m'
                    (buffer ++ next_data conn) (errs ++ recv) (hist ++ [log]) /\
    round_log sniffers metadata (buffer ++ next_data conn) log recv m'.
Proof.
  intros Ha Hf Hfair Hno. rewrite loop_eq, Ha, Hf.
  destruct (@race_round sniffers (buffer ++ next_data conn) sched metadata errs Hfair)
    as (v & r & Hrace & Hpost).
  rewrite Hrace.
  pose proof (race_post_no_match Hno Hpost) as ->.
  destruct (drained_results Hpost) as (_ & HP & HR & recv & HE & Hd).
  exists (meta r), recv, (done r). rewrite HE. split; [reflexivity|].
  rewrite length_tasks_of in HP. repeat split; assumption.
Qed.

Lemma rounds_inconclusive deadline sniffers rest oks :
  forall fairs i conn metadata buffer errs hist tail,
    reads conn = oks ++ tail ->
    Forall (fun s => failure s = None) oks ->
    arms_ok (length oks) conn ->
    Forall (no_match sniffers) (views buffer oks) ->
    Forall (fair (length sniffers)) fairs ->
    length fairs = length oks ->
    exists m' recvs hist',
      PeekStream_loop deadline sniffers (fairs ++ rest) i conn metadata buffer errs hist =
      PeekStream_loop deadline sniffers rest (length oks + i)
                      (after_rounds deadline (length oks) conn) m'
                      (buffer ++ flat_map data oks) (errs ++ concat recvs)
                      (hist ++ hist') /\
      Rounds sniffers metadata (views buffer oks) hist' recvs m'.
Proof.
  induction oks as [|s oks IH]; intros fairs i conn metadata buffer errs hist tail
    Hreads Hok Harms Hno Hfair Hlen.
  - destruct fairs; [|discriminate]. exists metadata, [], []. simpl.
    rewrite !app_nil_r. split; [reflexivity | constructor].
  - destruct fairs as [|sched fairs]; [discriminate|].
    inversion Hok as [|? ? Hs Hok']; subst.
    inversion Hfair as [|? ? Hsched Hfair']; subst.
    simpl in Hno. inversion Hno as [|? ? Hno1 Hno']; subst.
    destruct (arms_ok_step deadline Harms) as [Ha Harms'].
    destruct (next_read_cons conn Hreads) as [Hnf Hnd].
    rewrite Hs in Hnf.
    destruct (@round_inconclusive deadline sniffers sched (fairs ++ rest) i conn
                metadata buffer errs hist Ha Hnf Hsched) as (m1 & recv1 & log1 & Heq & Hlog).
    { now rewrite Hnd. }
    rewrite Hnd in Heq, Hlog.
    assert (Hreads' : reads (after_round deadline conn) = oks ++ tail).
    { destruct (after_round_fields deadline conn) as (_ & Fr & _).
      rewrite Fr, Hreads. reflexivity. }
    destruct (IH fairs (S i) (after_round deadline conn) m1 (buffer ++ data s)
                 (errs ++ recv1) (hist ++ [log1]) tail Hreads' Hok' Harms' Hno' Hfair')
      as (m' & recvs & hist' & Heq' & HR).
    { simpl in Hlen. lia. }
    exists m', (recv1 :: recvs), (log1 :: hist'). split.
    + simpl app at 1. rewrite Heq, Heq'. simpl.
      rewrite <- !app_assoc. simpl.
      replace (length oks + S i) with (S (length oks + i)) by lia. reflexivity.
    + simpl. econstructor; eassumption.
Qed.

Lemma Rounds_length sniffers m vs hist recvs m' :
  Rounds sniffers m vs hist recvs m' ->
  length hist = length vs /\ length recvs = length vs.
Proof. induction 1; simpl; [auto | split; lia]. Qed.

Lemma Rounds_matches sniffers m vs hist recvs m' :
  Rounds sniffers m vs hist recvs m' -> matches (concat hist) = 0.
Proof.
  induction 1 as [|m view log recv m1 vs hist recvs m' (_ & Hd & _) _ IH]; [reflexivity|].
  simpl. rewrite matches_app, IH, matches_none; [reflexivity|].
  eapply errors_only. exact Hd.
Qed.

Lemma quiet_tasks sniffers view :
  Forall (fun sn => quiet sn) sniffers ->
  forall t, In t (tasks_of sniffers view) ->
    forall m1, snd (t m1) <> None -> fst (t m1) = m1.
Proof.
  intros Hq t Ht m1. unfold tasks_of in Ht. apply in_map_iff in Ht.
  destruct Ht as (sn & <- & Hsn). rewrite Forall_forall in Hq. apply (Hq sn Hsn).
Qed.

Lemma Rounds_quiet sniffers m vs hist recvs m' :
  Forall (fun sn => quiet sn) sniffers ->
  Rounds sniffers m vs hist recvs m' -> m' = m.
Proof.
  intros Hq.
  induction 1 as [|m view log recv m1 vs hist recvs m' (_ & Hd & HR) _ IH]; [reflexivity|].
  rewrite IH.
  eapply (@Ran_quiet (tasks_of sniffers view));
    [apply quiet_tasks; exact Hq | exact HR | eapply errors_only; exact Hd].
Qed.


(** ** Skip *)

(** C6: [Skip] is a function of the destination port alone and is true
    exactly for the ports 25, 465, 587, 143, 993, 110 and 995. *)
Theorem Skip_server_first_ports (metadata : InboundContext) :
  Skip metadata =
    existsb (Z.eqb (Port (Destination metadata))) [25; 465; 587; 143; 993; 110; 995]%Z /\
  (Skip metadata = true <->
   In (Port (Destination metadata)) [25; 465; 587; 143; 993; 110; 995]%Z).
Proof.
  assert (E : Skip metadata =
    existsb (Z.eqb (Port (Destination metadata))) [25; 465; 587; 143; 993; 110; 995]%Z).
  { unfold Skip. simpl.
    destruct (Port (Destination metadata) =? 25)%Z; [reflexivity|].
    destruct (Port (Destination metadata) =? 465)%Z; [reflexivity|].
    destruct (Port (Destination metadata) =? 587)%Z; [reflexivity|].
    destruct (Port (Destination metadata) =? 143)%Z; [reflexivity|].
    destruct (Port (Destination metadata) =? 993)%Z; [reflexivity|].
    destruct (Port (Destination metadata) =? 110)%Z; [reflexivity|].
    destruct (Port (Destination metadata) =? 995)%Z; reflexivity. }
  split; [exact E|]. rewrite E, existsb_exists. split.
  - intros (x & Hx & Hp). apply Z.eqb_eq in Hp. now subst.
  - intros H. exists (Port (Destination metadata)). split; [assumption | apply Z.eqb_refl].
Qed.

(** ** PeekPacket without sniffers *)

Lemma race_empty m c sched :
  let st c := {| meta := m; pending := []; ready := []; chan := []; closed := c;
                 errors := []; done := [] |} in
  race [] 0 sched (st c) = None \/ race [] 0 sched (st c) = Some (Drained, st true).
Proof.
  intros st. revert c. induction sched as [|a sched IH]; intros c; [now left|].
  destruct a as [i|i| |]; simpl.
  - apply IH.
  - apply IH.
  - apply (IH true).
  - destruct c; [now right | apply IH].
Qed.

Lemma race_empty_closes m sched :
  let st c := {| meta := m; pending := []; ready := []; chan := []; closed := c;
                 errors := []; done := [] |} in
  forall c, race [] 0 (sched ++ [Close; Recv]) (st c) = Some (Drained, st true).
Proof.
  intros st. induction sched as [|a sched IH]; intros c; [reflexivity|].
  destruct a as [i|i| |]; simpl.
  - apply IH.
  - apply IH.
  - apply (IH true).
  - destruct c; [reflexivity | apply IH].
Qed.

(** C2, as the code has it: with no sniffer passed, [PeekPacket] launches
    nothing and waits for nothing but the closing of the channel: as soon
    as the background goroutine has closed it and the collector looks, the
    call leaves through [return E.Errors()] with an empty slice, never
    through [return nil], whatever else the schedule holds; the metadata is
    untouched, and the value [E.Errors] makes of the empty slice is nil, the
    very value a match returns. *)
Theorem PeekPacket_no_sniffers (metadata : InboundContext) (packet : list byte)
    (sched : list Action) :
  let idle := {| meta := metadata; pending := []; ready := []; chan := [];
                 closed := true; errors := []; done := [] |} in
  (PeekPacket metadata packet [] sched = None \/
   PeekPacket metadata packet [] sched = Some (RetErrors [], idle)) /\
  PeekPacket metadata packet [] (sched ++ [Close; Recv]) = Some (RetErrors [], idle) /\
  Ret_value (RetErrors []) = None /\
  Ret_value (RetErrors []) = Ret_value RetNil.
Proof.
  intros idle. unfold PeekPacket, launch. simpl. split; [|split; [|split; reflexivity]].
  - destruct (race_empty metadata false sched) as [H|H]; simpl in H; rewrite H; auto.
  - pose proof (race_empty_closes metadata sched false) as H. simpl in H.
    rewrite H. reflexivity.
Qed.

(** ** PeekStream: the first read *)

(** C3: when the very first read fails, [PeekStream] returns that error
    wrapped with "read payload" at once: one read was made, no sniffer was
    called and the metadata is as it was, whatever the sniffers and the
    schedules. *)
Theorem PeekStream_first_read_fails (ReadPayloadTimeout : Duration)
    (metadata : InboundContext) (conn : Conn) (buffer : list byte)
    (timeout : Duration) (sniffers : list StreamSniffer)
    (scheds : list (list Action)) (e : error) :
  next_arm conn = None ->
  next_failure conn = Some e ->
  exists out,
    PeekStream ReadPayloadTimeout metadata conn buffer timeout sniffers scheds = Some out /\
    ret out = RetCause e "read payload" /\
    meta_end out = metadata /\
    Protocol (meta_end out) = Protocol metadata /\
    history out = [] /\
    running out = [] /\
    reads_made (calls (conn_end out)) = S (reads_made (calls conn)).
Proof.
  intros Ha Hf. unfold PeekStream. rewrite loop_eq, Ha, Hf.
  change (0 <? 0) with false. cbv iota.
  eexists. split; [reflexivity|].
  cbn [ret meta_end history running conn_end]. repeat split.
  destruct (after_round_fields
              (Add (Now conn) (if (timeout =? 0)%Z then ReadPayloadTimeout else timeout))
              conn) as (_ & _ & Fc).
  rewrite Fc, reads_made_app. unfold reads_made at 2. simpl. lia.
Qed.

(** ** PeekStream: the deadline *)



(** ** PeekStream: rounds without a match *)

Lemma reads_made_block deadline : reads_made (block deadline) = 1.
Proof. reflexivity. Qed.

Lemma next_failure_script conn : next_failure conn = script_failure (reads conn).
Proof. unfold next_failure, ReadOnceFrom, script_failure. now destruct (reads conn). Qed.

Lemma skipn_prefix {A} (l1 l2 : list A) : skipn (length l1) (l1 ++ l2) = l2.
Proof. induction l1; simpl; auto. Qed.

Lemma Rounds_sizes sniffers m vs hist recvs m' :
  Rounds sniffers m vs hist recvs m' ->
  Forall (fun recv => length recv = length sniffers) recvs /\
  Forall (fun log => length log = length sniffers) hist.
Proof.
  induction 1 as [|m view log recv m1 vs hist recvs m' (HP & Hd & _) _ [IH1 IH2]];
    [split; constructor|].
  apply Permutation_length in HP, Hd.
  rewrite length_map, length_seq in HP. rewrite !length_map in Hd.
  split; constructor; (assumption || lia).
Qed.

(** After [k] rounds without a match the loop stands at round [k] with the
    connection [k] rounds on. *)
Lemma PeekStream_rounds (ReadPayloadTimeout : Duration) metadata conn buffer timeout
    sniffers fairs rest oks tail :
  reads conn = oks ++ tail ->
  Forall (fun s => failure s = None) oks ->
  arms_ok (length oks) conn ->
  Forall (no_match sniffers) (views buffer oks) ->
  Forall (fair (length sniffers)) fairs ->
  length fairs = length oks ->
  let deadline :=
    Add (Now conn) (if (timeout =? 0)%Z then ReadPayloadTimeout else timeout) in
  let conn' := after_rounds deadline (length oks) conn in
  exists m' recvs hist',
    PeekStream ReadPayloadTimeout metadata conn buffer timeout sniffers (fairs ++ rest) =
    PeekStream_loop deadline sniffers rest (length oks) conn' m'
                    (buffer ++ flat_map data oks) (concat recvs) hist' /\
    Rounds sniffers metadata (views buffer oks) hist' recvs m' /\
    next_arm conn' = nth (2 * length oks) (deadline_results conn) None /\
    next_failure conn' = script_failure tail /\
    next_data conn' = match tail with [] => [] | s :: _ => data s end /\
    calls conn' = calls conn ++ concat (repeat (block deadline) (length oks)).
Proof.
  intros Hreads Hok Harms Hno Hfair Hlen deadline conn'.
  destruct (@rounds_inconclusive deadline sniffers rest oks fairs 0 conn metadata buffer
              [] [] tail Hreads Hok Harms Hno Hfair Hlen) as (m' & recvs & hist' & Heq & HR).
  exists m', recvs, hist'. unfold PeekStream. fold deadline.
  rewrite Heq. rewrite Nat.add_0_r. simpl app. fold conn'.
  destruct (after_rounds_fields deadline (length oks) conn) as (Fd & Fr & Fc).
  fold conn' in Fd, Fr, Fc.
  assert (Ht : reads conn' = tail) by (rewrite Fr, Hreads; apply skipn_prefix).
  repeat split; try assumption.
  - unfold next_arm. rewrite Fd. f_equal. lia.
  - now rewrite next_failure_script, Ht.
  - unfold next_data, ReadOnceFrom. rewrite Ht. now destruct tail.
Qed.

(** The loop left because a read failed after at least one round. *)
Lemma PeekStream_runs_dry (ReadPayloadTimeout : Duration) metadata conn buffer timeout
    sniffers fairs rest oks tail e :
  reads conn = oks ++ tail ->
  oks <> [] ->
  Forall (fun s => failure s = None) oks ->
  script_failure tail = Some e ->
  arms_ok (S (length oks)) conn ->
  Forall (no_match sniffers) (views buffer oks) ->
  Forall (fair (length sniffers)) fairs ->
  length fairs = length oks ->
  exists out recvs m',
    PeekStream ReadPayloadTimeout metadata conn buffer timeout sniffers (fairs ++ rest) =
      Some out /\
    ret out = RetErrors (concat recvs) /\
    meta_end out = m' /\
    running out = [] /\
    Rounds sniffers metadata (views buffer oks) (history out) recvs m' /\
    reads_made (calls (conn_end out)) = reads_made (calls conn) + S (length oks).
Proof.
  intros Hreads Hne Hok Hfail Harms Hno Hfair Hlen.
  assert (Harms' : arms_ok (length oks) conn) by (intros j Hj; apply Harms; lia).
  destruct (@PeekStream_rounds ReadPayloadTimeout metadata conn buffer timeout sniffers
              fairs rest oks tail Hreads Hok Harms' Hno Hfair Hlen)
    as (m' & recvs & hist' & Heq & HR & Ha & Hf & _ & Hc).
  rewrite Heq, loop_eq, Ha, (Harms (length oks)), Hf, Hfail by lia.
  assert (Hpos : (0 <? length oks) = true).
  { apply Nat.ltb_lt. destruct oks; [congruence | simpl; lia]. }
  rewrite Hpos. eexists. exists recvs, m'. split; [reflexivity|].
  cbn [ret meta_end running history conn_end]. repeat split; try assumption.
  match goal with |- context [after_round ?d ?c] =>
    destruct (after_round_fields d c) as (_ & _ & Fc) end.
  rewrite Fc, Hc, !reads_made_app, reads_made_blocks, reads_made_block. lia.
Qed.

Lemma UniqBy_In (x : error) (arr : list error) :
  forall seen, In x (UniqBy seen arr) <-> In x arr /\ ~ In x seen.
Proof.
  induction arr as [|item rest IH]; intros seen; simpl; [tauto|].
  destruct (existsb (String.eqb item) seen) eqn:E.
  - apply existsb_exists in E. destruct E as (y & Hy & E).
    apply String.eqb_eq in E. subst y. rewrite IH. split.
    + tauto.
    + intros [[->|H] Hn]; [contradiction | tauto].
  - assert (Hitem : ~ In item seen).
    { intros Hin. apply Bool.not_true_iff_false in E. apply E.
      apply existsb_exists. exists item. split; [assumption | apply String.eqb_refl]. }
    simpl. rewrite IH. simpl. split.
    + intros [->|[H Hn]]; [tauto|]. split; [tauto|]. intros Hs. apply Hn. now right.
    + intros [[->|H] Hn]; [now left|].
      destruct (String.eqb item x) eqn:Ex.
      * apply String.eqb_eq in Ex. now left.
      * apply String.eqb_neq in Ex. right. split; [assumption|].
        intros [Hs|Hs]; [congruence | contradiction].
Qed.

Lemma UniqBy_NoDup (arr : list error) : forall seen, NoDup (UniqBy seen arr).
Proof.
  induction arr as [|item rest IH]; intros seen; simpl; [constructor|].
  destruct (existsb (String.eqb item) seen); [apply IH|].
  constructor; [|apply IH]. rewrite UniqBy_In. intros [_ Hn]. apply Hn. now left.
Qed.

Lemma reasons_in_Errors (errs : list error) : reasons_in (Errors errs) = UniqBy [] errs.
Proof. unfold Errors. destruct (UniqBy [] errs) as [|e [|e' es]]; reflexivity. Qed.

(** C4, as the code has it: when a read fails after [k >= 1] rounds in
    which no sniffer matched, [PeekStream] leaves its loop and returns
    [E.Errors] of a slice holding the reasons of every round: each round
    contributed one call per sniffer, each call an error, and the reasons of
    a round are exactly the errors its calls returned.  The error that
    results holds each message of that slice once, in the order of first
    appearance: a reason repeated by another round or another sniffer is
    not repeated in it. *)
Theorem PeekStream_exhausted (ReadPayloadTimeout : Duration)
    (metadata : InboundContext) (conn : Conn) (buffer : list byte)
    (timeout : Duration) (sniffers : list StreamSniffer)
    (fairs rest : list (list Action)) (oks tail : list ReadStep) (e : error) :
  reads conn = oks ++ tail ->
  oks <> [] ->
  Forall (fun s => failure s = None) oks ->
  script_failure tail = Some e ->
  arms_ok (S (length oks)) conn ->
  Forall (no_match sniffers) (views buffer oks) ->
  Forall (fair (length sniffers)) fairs ->
  length fairs = length oks ->
  exists out recvs m',
    PeekStream ReadPayloadTimeout metadata conn buffer timeout sniffers (fairs ++ rest) =
      Some out /\
    ret out = RetErrors (concat recvs) /\
    Rounds sniffers metadata (views buffer oks) (history out) recvs m' /\
    length recvs = length oks /\
    Forall (fun recv => length recv = length sniffers) recvs /\
    length (concat recvs) = length oks * length sniffers /\
    Ret_value (ret out) = Errors (concat recvs) /\
    reasons_in (Ret_value (ret out)) = UniqBy [] (concat recvs) /\
    NoDup (reasons_in (Ret_value (ret out))) /\
    (forall x, In x (reasons_in (Ret_value (ret out))) <-> In x (concat recvs)).
Proof.
  intros Hreads Hne Hok Hfail Harms Hno Hfair Hlen.
  destruct (@PeekStream_runs_dry ReadPayloadTimeout metadata conn buffer timeout sniffers
              fairs rest oks tail e Hreads Hne Hok Hfail Harms Hno Hfair Hlen)
    as (out & recvs & m' & Heq & Hret & _ & _ & HR & _).
  exists out, recvs, m'.
  destruct (Rounds_length HR) as [_ Hl]. destruct (Rounds_sizes HR) as [Hs _].
  assert (Hv : length (views buffer oks) = length oks).
  { clear. revert buffer. induction oks; intros; simpl; auto. }
  rewrite Hv in Hl.
  assert (Hval : Ret_value (ret out) = Errors (concat recvs)) by now rewrite Hret.
  split; [assumption|]. split; [assumption|]. split; [assumption|].
  split; [assumption|]. split; [assumption|]. split.
  { rewrite <- Hl. clear - Hs. induction Hs as [|recv recvs Hr _ IH]; [reflexivity|].
    simpl. rewrite length_app, IH, Hr. reflexivity. }
  split; [exact Hval|]. rewrite Hval, reasons_in_Errors.
  split; [reflexivity|]. split; [apply UniqBy_NoDup|].
  intros x. rewrite UniqBy_In. simpl. tauto.
Qed.


(** C9: in whatever round arming the read deadline fails, after [k >= 0]
    rounds without a match, [PeekStream] returns that error wrapped with
    "set read deadline"; the reasons collected in the [k] rounds are not part
    of the result, and with sniffers that leave the metadata alone when they
    fail the metadata is as it was. *)
Theorem PeekStream_arming_fails (ReadPayloadTimeout : Duration)
    (metadata : InboundContext) (conn : Conn) (buffer : list byte)
    (timeout : Duration) (sniffers : list StreamSniffer)
    (fairs rest : list (list Action)) (oks tail : list ReadStep) (e : error) :
  reads conn = oks ++ tail ->
  Forall (fun s => failure s = None) oks ->
  arms_ok (length oks) conn ->
  nth (2 * length oks) (deadline_results conn) None = Some e ->
  Forall (no_match sniffers) (views buffer oks) ->
  Forall (fun sn => quiet sn) sniffers ->
  Forall (fair (length sniffers)) fairs ->
  length fairs = length oks ->
  exists out recvs,
    PeekStream ReadPayloadTimeout metadata conn buffer timeout sniffers (fairs ++ rest) =
      Some out /\
    ret out = RetCause e "set read deadline" /\
    meta_end out = metadata /\
    Protocol (meta_end out) = Protocol metadata /\
    Rounds sniffers metadata (views buffer oks) (history out) recvs metadata /\
    Forall (fun recv => length recv = length sniffers) recvs /\
    reads_made (calls (conn_end out)) = reads_made (calls conn) + length oks.
Proof.
  intros Hreads Hok Harms Hbad Hno Hq Hfair Hlen.
  destruct (@PeekStream_rounds ReadPayloadTimeout metadata conn buffer timeout sniffers
              fairs rest oks tail Hreads Hok Harms Hno Hfair Hlen)
    as (m' & recvs & hist' & Heq & HR & Ha & _ & _ & Hc).
  rewrite Heq, loop_eq, Ha, Hbad.
  pose proof (Rounds_quiet Hq HR) as ->.
  destruct (Rounds_sizes HR) as [Hs _].
  eexists. exists recvs. split; [reflexivity|].
  cbn [ret meta_end running history conn_end]. repeat split; try assumption.
  unfold SetReadDeadline. cbn [fst calls].
  rewrite Hc, !reads_made_app, reads_made_blocks.
  match goal with |- context [reads_made [CallSetReadDeadline ?d]] =>
    change (reads_made [CallSetReadDeadline d]) with 0 end.
  lia.
Qed.

(** ** Races between detectors *)

Lemma sniffer_of_quiet (ds : list Detector) :
  Forall (fun sn => quiet sn) (map sniffer_of ds).
Proof.
  apply Forall_forall. intros sn Hsn. apply in_map_iff in Hsn.
  destruct Hsn as (d & <- & _). intros m view. unfold sniffer_of.
  destruct (d view); simpl; congruence.
Qed.

Lemma nth_error_detector (ds : list Detector) view i t :
  nth_error (tasks_of (map sniffer_of ds) view) i = Some t ->
  exists d, nth_error ds i = Some d /\ t = fun m => sniffer_of d m view.
Proof.
  intros Ht. apply nth_error_tasks_of in Ht. destruct Ht as (sn & Hsn & ->).
  rewrite nth_error_map in Hsn.
  destruct (nth_error ds i) as [d|]; simpl in Hsn; inversion Hsn. eauto.
Qed.

(** The protocol on the metadata is that of the detector whose match was
    written last. *)
Lemma Ran_detectors (ds : list Detector) view m0 log m :
  Ran (tasks_of (map sniffer_of ds) view) m0 log m ->
  match last_match log with
  | Some j => exists d p, nth_error ds j = Some d /\ d view = Matched p /\ Protocol m = p
  | None => m = m0
  end.
Proof.
  induction 1 as [|log m i t m' res HR IH Ht Hrun]; [reflexivity|].
  rewrite last_match_snoc.
  apply nth_error_detector in Ht. destruct Ht as (d & Hd & ->).
  unfold sniffer_of in Hrun. destruct (d view) as [p|e] eqn:Hv; inversion Hrun; subst.
  - exists d, p. auto.
  - exact IH.
Qed.

Lemma last_match_none (log : list (nat * option error)) :
  last_match log = None -> ~ In None (map snd log).
Proof.
  induction log as [|[i res] log IH] using rev_ind; intros H Hin; [contradiction|].
  rewrite last_match_snoc in H. destruct res as [e|]; [|discriminate].
  rewrite map_app in Hin. apply in_app_or in Hin.
  destruct Hin as [Hin|[Hin|[]]]; [now apply IH | discriminate].
Qed.

Lemma matched_by_detector (ds : list Detector) view m0 log m :
  Ran (tasks_of (map sniffer_of ds) view) m0 log m ->
  forall i, In (i, None) log ->
    exists d p, nth_error ds i = Some d /\ d view = Matched p.
Proof.
  intros HR i Hin. destruct (Ran_origin HR _ _ Hin) as (t & m1 & Ht & Hrun).
  apply nth_error_detector in Ht. destruct Ht as (d & Hd & ->).
  unfold sniffer_of in Hrun. destruct (d view) as [p|e] eqn:Hv; [eauto | discriminate].
Qed.

(** A race in which some detector matches. *)
Lemma race_matched (ds : list Detector) view m0 errs sched i d p :
  nth_error ds i = Some d ->
  d view = Matched p ->
  fair (length ds) sched ->
  exists r j dj pj,
    race (tasks_of (map sniffer_of ds) view) (length (map sniffer_of ds)) sched
         (launch m0 errs (length (map sniffer_of ds))) = Some (Match, r) /\
    race_post (tasks_of (map sniffer_of ds) view) m0 errs Match r /\
    last_match (done r) = Some j /\
    nth_error ds j = Some dj /\ dj view = Matched pj /\
    Protocol (meta r) = pj.
Proof.
  intros Hd Hv Hfair. rewrite <- (length_map sniffer_of) in Hfair.
  destruct (@race_round (map sniffer_of ds) view sched m0 errs Hfair)
    as (v & r & Hrace & Hpost).
  assert (v = Match) as ->.
  { eapply race_post_some_match with (i := i) (sn := sniffer_of d); [| |exact Hpost].
    - rewrite nth_error_map, Hd. reflexivity.
    - intros m. unfold sniffer_of. now rewrite Hv. }
  destruct (matched_result Hpost) as (HR & _ & Hin).
  pose proof (@Ran_detectors ds view m0 _ _ HR) as Hlast.
  destruct (last_match (done r)) as [j|] eqn:Hj.
  - destruct Hlast as (dj & pj & H1 & H2 & H3). exists r, j, dj, pj. auto 10.
  - exfalso. eapply last_match_none; eassumption.
Qed.

(** C1, as the code has it: when one or more detectors match the bytes,
    every run of the race ends with [return nil], and the protocol on the
    metadata at the return is that of the matching detector whose call was
    the last to return before the collector took the nil.  Registration
    order plays no part. *)
Theorem PeekPacket_last_writer_wins (metadata : InboundContext) (packet : list byte)
    (ds : list Detector) (sched : list Action) (i : nat) (d : Detector) (p : string) :
  nth_error ds i = Some d ->
  d packet = Matched p ->
  fair (length ds) sched ->
  exists r j dj pj,
    PeekPacket metadata packet (map sniffer_of ds) sched = Some (RetNil, r) /\
    last_match (done r) = Some j /\
    nth_error ds j = Some dj /\ dj packet = Matched pj /\
    Protocol (meta r) = pj.
Proof.
  intros Hd Hv Hfair.
  destruct (@race_matched ds packet metadata [] sched i d p Hd Hv Hfair)
    as (r & j & dj & pj & Hrace & _ & H).
  exists r, j, dj, pj. split; [|exact H].
  unfold PeekPacket. unfold tasks_of in Hrace. rewrite Hrace. reflexivity.
Qed.


(** C8, as the code has it: with [k - 1] rounds in which no detector
    matches and a detector matching the bytes of round [k], [PeekStream]
    returns nil after exactly [k] reads.  The protocol field is written by
    the detectors themselves: by none in the first [k - 1] rounds, and in
    round [k] once by each matching detector whose call returned before the
    collector took the nil, which is at least one and may be several; at the
    return it holds the protocol of the last of them. *)
Theorem PeekStream_match_on_round_k (ReadPayloadTimeout : Duration)
    (metadata : InboundContext) (conn : Conn) (buffer : list byte)
    (timeout : Duration) (ds : list Detector)
    (fairs : list (list Action)) (sched : list Action) (rest : list (list Action))
    (oks : list ReadStep) (s : ReadStep) (tail : list ReadStep)
    (i : nat) (d : Detector) (p : string) :
  reads conn = oks ++ s :: tail ->
  Forall (fun s => failure s = None) oks ->
  failure s = None ->
  arms_ok (S (length oks)) conn ->
  Forall (no_match (map sniffer_of ds)) (views buffer oks) ->
  nth_error ds i = Some d ->
  d ((buffer ++ flat_map data oks) ++ data s) = Matched p ->
  Forall (fair (length ds)) fairs ->
  length fairs = length oks ->
  fair (length ds) sched ->
  exists out before log j dj pj,
    PeekStream ReadPayloadTimeout metadata conn buffer timeout (map sniffer_of ds)
               (fairs ++ sched :: rest) = Some out /\
    ret out = RetNil /\
    reads_made (calls (conn_end out)) = reads_made (calls conn) + S (length oks) /\
    history out = before ++ [log] /\
    length before = length oks /\
    matches (concat before) = 0 /\
    1 <= matches log /\
    NoDup (map fst log) /\
    (forall i', In (i', None) log ->
       exists d' p', nth_error ds i' = Some d' /\
                     d' ((buffer ++ flat_map data oks) ++ data s) = Matched p') /\
    last_match log = Some j /\
    nth_error ds j = Some dj /\
    dj ((buffer ++ flat_map data oks) ++ data s) = Matched pj /\
    Protocol (meta_end out) = pj.
Proof.
  intros Hreads Hok Hs Harms Hno Hd Hv Hfair Hlen Hsched.
  assert (Harms' : arms_ok (length oks) conn) by (intros j Hj; apply Harms; lia).
  assert (Hfair' : Forall (fair (length (map sniffer_of ds))) fairs)
    by now rewrite length_map.
  destruct (@PeekStream_rounds ReadPayloadTimeout metadata conn buffer timeout
              (map sniffer_of ds) fairs (sched :: rest) oks (s :: tail)
              Hreads Hok Harms' Hno Hfair' Hlen)
    as (m' & recvs & hist' & Heq & HR & Ha & Hf & Hnd & Hc).
  simpl in Hf, Hnd.
  rewrite Heq, loop_eq, Ha, (Harms (length oks)), Hf, Hs, Hnd by lia.
  destruct (@race_matched ds ((buffer ++ flat_map data oks) ++ data s) m' (concat recvs)
              sched i d p Hd Hv Hsched)
    as (r & j & dj & pj & Hrace & Hpost & Hj & Hdj & Hvj & Hp).
  rewrite Hrace.
  destruct (matched_result Hpost) as (HRan & ND & Hin).
  eexists. exists hist', (done r), j, dj, pj. split; [reflexivity|].
  cbn [ret meta_end running history conn_end].
  destruct (Rounds_length HR) as [Hl _].
  assert (Hvl : length (views buffer oks) = length oks).
  { clear. revert buffer. induction oks; intros; simpl; auto. }
  repeat split; try assumption.
  - match goal with |- context [after_round ?dl ?c] =>
      destruct (after_round_fields dl c) as (_ & _ & Fc) end.
    rewrite Fc, Hc, !reads_made_app, reads_made_blocks, reads_made_block. lia.
  - congruence.
  - eapply Rounds_matches. exact HR.
  - now apply matches_some.
  - intros i' Hi'. eapply matched_by_detector; eassumption.
Qed.

(** ** Worked runs *)

(** C1, counterexample: both detectors match the packet and the first
    registered one says "tls", yet a run in which the second detector's call
    returns before the nil is taken ends with "raw" on the metadata, and
    another run with the same inputs ends with "tls". *)
Lemma PeekPacket_second_registered_wins :
  tls_detector hello = Matched "tls" /\
  raw_detector hello = Matched "raw" /\
  first_registered registry hello = Some "tls"%string /\
  (exists r, PeekPacket blank hello (map sniffer_of registry) both_then_recv
             = Some (RetNil, r) /\ Protocol (meta r) = "raw"%string) /\
  (exists r, PeekPacket blank hello (map sniffer_of registry) first_then_recv
             = Some (RetNil, r) /\ Protocol (meta r) = "tls"%string).
Proof.
  split; [reflexivity|]. split; [reflexivity|]. split; [reflexivity|].
  split; eexists; (split; [vm_compute; reflexivity | vm_compute; reflexivity]).
Qed.

(** C2, counterexample: with no sniffer the call leaves through
    [return E.Errors()] of the empty slice, and the value that yields is
    nil, as for a success. *)
Lemma PeekPacket_no_sniffers_returns_nil :
  exists r,
    PeekPacket blank hello [] [Close; Recv] = Some (RetErrors [], r) /\
    Ret_value (RetErrors []) = None /\
    Ret_value (RetErrors []) = Ret_value RetNil.
Proof. eexists. split; [vm_compute; reflexivity|]. split; reflexivity. Qed.

(** C4, counterexample: two detectors go through two rounds over the same
    empty view and give the same two reasons in each; the slice handed to
    [E.Errors] holds four reasons, the error returned holds two. *)
Lemma PeekStream_repeated_reasons_merged :
  exists out,
    PeekStream 300%Z blank
               (scripted [] [ok_read []; ok_read []; bad_read "timeout"%string]) [] 0%Z
               (map sniffer_of registry) [drain 2; drain 2] = Some out /\
    ret out = RetErrors ["not a handshake"; "no data";
                         "not a handshake"; "no data"]%string /\
    Ret_value (ret out) = Some (multiError ["not a handshake"; "no data"]%string) /\
    length (reasons_in (Ret_value (ret out))) = 2 /\
    length (history out) * length (map sniffer_of registry) = 4.
Proof.
  eexists. split; [vm_compute; reflexivity|].
  vm_compute. repeat split; reflexivity.
Qed.


(** C8, counterexample: nothing matches the empty first read, both
    detectors match after the second; [PeekStream] returns nil after two
    reads and the protocol field has been written twice. *)
Lemma PeekStream_protocol_written_twice :
  exists out,
    PeekStream 300%Z blank (scripted [] [ok_read []; ok_read hello]) [] 0%Z
               (map sniffer_of registry) [drain 2; both_then_recv] = Some out /\
    ret out = RetNil /\
    reads_made (calls (conn_end out)) = 2 /\
    history out = [[(0, Some "not a handshake"%string); (1, Some "no data"%string)];
                   [(0, None); (1, None)]] /\
    matches (concat (history out)) = 2 /\
    Protocol (meta_end out) = "raw"%string.
Proof.
  eexists. split; [vm_compute; reflexivity|].
  vm_compute. repeat split; reflexivity.
Qed.

(** ** The theorems at work on the runs above *)

Lemma fair_drain (n : nat) (s0 : list Action) : fair n (s0 ++ drain n).
Proof. exists s0. reflexivity. Defined.

Lemma arms_ok_unscripted (k : nat) (rs : list ReadStep) : arms_ok k (scripted [] rs).
Proof. intros j _. simpl. destruct (j + (j + 0)); reflexivity. Defined.

Lemma arms_fail_second_round :
  arms_ok 1 (scripted [None; None; Some "closed"%string] [ok_read []]).
Proof. intros j Hj. destruct j; [reflexivity | inversion Hj as [|? H]; inversion H]. Defined.

Lemma registry_silent_on_nothing :
  no_match (map sniffer_of registry) ([] ++ []).
Proof. intros sn [<-|[<-|[]]] m; discriminate. Defined.

(** The premises of the theorems on the scripted runs. *)
Ltac premise :=
  first
    [ reflexivity
    | discriminate
    | apply arms_ok_unscripted
    | apply arms_fail_second_round
    | apply sniffer_of_quiet
    | apply fair_drain
    | exists []; reflexivity
    | apply registry_silent_on_nothing
    | constructor; premise ].

Lemma PeekStream_first_read_fails_witness :
  exists out,
    PeekStream 300%Z blank (scripted [] [bad_read "connection reset"%string]) [] 0%Z
               (map sniffer_of registry) [] = Some out /\
    ret out = RetCause "connection reset"%string "read payload" /\
    history out = [].
Proof.
  destruct (@PeekStream_first_read_fails 300%Z blank
              (scripted [] [bad_read "connection reset"%string]) [] 0%Z
              (map sniffer_of registry) [] "connection reset"%string)
    as (out & H1 & H2 & _ & _ & H3 & _); [premise | premise |].
  exists out. split; [exact H1|]. split; [exact H2 | exact H3].
Defined.


Lemma PeekStream_exhausted_witness :
  exists out recvs,
    PeekStream 300%Z blank (scripted [] [ok_read []; bad_read "timeout"%string]) [] 0%Z
               (map sniffer_of registry) [drain 2] = Some out /\
    ret out = RetErrors (concat recvs) /\
    length (concat recvs) = 1 * 2.
Proof.
  destruct (@PeekStream_exhausted 300%Z blank
              (scripted [] [ok_read []; bad_read "timeout"%string]) [] 0%Z
              (map sniffer_of registry) [drain 2] []
              [ok_read []] [bad_read "timeout"%string] "timeout"%string)
    as (out & recvs & m' & H1 & H2 & _ & _ & _ & H3 & _);
    [premise | premise | premise | premise | premise | premise | premise | premise |].
  exists out, recvs. split; [exact H1|]. split; [exact H2 | exact H3].
Defined.


Lemma PeekStream_arming_fails_witness :
  exists out,
    PeekStream 300%Z blank (scripted [None; None; Some "closed"%string] [ok_read []])
               [] 0%Z (map sniffer_of registry) [drain 2] = Some out /\
    ret out = RetCause "closed"%string "set read deadline" /\
    meta_end out = blank.
Proof.
  destruct (@PeekStream_arming_fails 300%Z blank
              (scripted [None; None; Some "closed"%string] [ok_read []]) [] 0%Z
              (map sniffer_of registry) [drain 2] []
              [ok_read []] [] "closed"%string)
    as (out & recvs & H1 & H2 & H3 & _);
    [premise | premise | premise | premise | premise | premise | premise | premise |].
  exists out. split; [exact H1|]. split; [exact H2 | exact H3].
Defined.

Lemma PeekPacket_last_writer_wins_witness :
  exists r j,
    PeekPacket blank hello (map sniffer_of registry) (both_then_recv ++ drain 2)
      = Some (RetNil, r) /\
    last_match (done r) = Some j.
Proof.
  destruct (@PeekPacket_last_writer_wins blank hello registry
              (both_then_recv ++ drain 2) 0 tls_detector "tls"%string)
    as (r & j & dj & pj & H1 & H2 & _); [premise | premise | premise |].
  exists r, j. split; [exact H1 | exact H2].
Defined.


Lemma PeekStream_match_on_round_k_witness :
  exists out,
    PeekStream 300%Z blank (scripted [] [ok_read []; ok_read hello]) [] 0%Z
               (map sniffer_of registry) [drain 2; both_then_recv ++ drain 2]
      = Some out /\
    ret out = RetNil /\
    reads_made (calls (conn_end out)) = 0 + 2.
Proof.
  destruct (@PeekStream_match_on_round_k 300%Z blank
              (scripted [] [ok_read []; ok_read hello]) [] 0%Z registry
              [drain 2] (both_then_recv ++ drain 2) []
              [ok_read []] (ok_read hello) [] 0 tls_detector "tls"%string)
    as (out & before & log & j & dj & pj & H1 & H2 & H3 & _);
    [premise | premise | premise | premise | premise | premise | premise | premise
     | premise | premise |].
  exists out. split; [exact H1|]. split; [exact H2 | exact H3].
Defined.

(** ** PeekPacket: what a return means *)

Lemma race_started_sound sniffers view sched m errs v r :
  race (tasks_of sniffers view) (length sniffers) sched
       (launch m errs (length sniffers)) = Some (v, r) ->
  race_post (tasks_of sniffers view) m errs v r.
Proof.
  intros H. rewrite <- (length_tasks_of sniffers view) in H.
  eapply race_sound; [apply launch_inv | exact H].
Qed.

(** X1: whatever the schedule, [PeekPacket] leaves through [return nil]
    only when some sniffer call returned nil, and through
    [return E.Errors] only when every
    sniffer was called exactly once, each call gave an error, the errors
    handed over are those errors and no goroutine is left unfinished; it
    never returns a wrapped single error. *)
Theorem PeekPacket_verdict (metadata : InboundContext) (packet : list byte)
    (sniffers : list PacketSniffer) (sched : list Action) (res : Ret) (r : Race) :
  PeekPacket metadata packet sniffers sched = Some (res, r) ->
  Ran (tasks_of sniffers packet) metadata (done r) (meta r) /\
  NoDup (map fst (done r)) /\
  match res with
  | RetNil => In None (map snd (done r))
  | RetErrors errs =>
      unfinished r = [] /\
      Permutation (map fst (done r)) (seq 0 (length sniffers)) /\
      Permutation (map snd (done r)) (map Some errs)
  | RetCause _ _ => False
  end.
Proof.
  unfold PeekPacket. intros H.
  destruct (race (map (fun sn m => sn m packet) sniffers) (length sniffers) sched
                 (launch metadata [] (length sniffers))) as [[v r']|] eqn:Hrace;
    [|discriminate].
  apply race_started_sound in Hrace.
  destruct v; inversion H; subst.
  - destruct (matched_result Hrace) as (HR & ND & Hin). auto.
  - destruct (drained_results Hrace) as (Hu & HP & HR & recv & HE & Hd).
    rewrite length_tasks_of in HP. simpl in HE. rewrite HE.
    split; [assumption|]. split; [|auto].
    apply Permutation_NoDup with (seq 0 (length sniffers));
      [now symmetry | apply seq_NoDup].
Qed.

Lemma detector_results (ds : list Detector) view m0 log m :
  Ran (tasks_of (map sniffer_of ds) view) m0 log m ->
  forall i res, In (i, res) log ->
    exists d, nth_error ds i = Some d /\ res = reason (d view).
Proof.
  intros HR i res Hin. destruct (Ran_origin HR _ _ Hin) as (t & m1 & Ht & Hrun).
  apply nth_error_detector in Ht. destruct Ht as (d & Hd & ->).
  exists d. split; [assumption|]. unfold sniffer_of in Hrun.
  destruct (d view); simpl in *; congruence.
Qed.

Lemma detectors_keep_destination (ds : list Detector) view m0 log m :
  Ran (tasks_of (map sniffer_of ds) view) m0 log m ->
  Destination m = Destination m0.
Proof.
  induction 1 as [|log m k t m' res HR IH Ht Hrun]; [reflexivity|].
  apply nth_error_detector in Ht. destruct Ht as (d & Hd & ->).
  unfold sniffer_of in Hrun. destruct (d view); inversion Hrun; subst; exact IH.
Qed.

Lemma map_seq_nth_error {A B} (f : option A -> B) (l : list A) :
  map (fun i => f (nth_error l i)) (seq 0 (length l)) = map (fun x => f (Some x)) l.
Proof.
  induction l as [|a l IH]; [reflexivity|].
  simpl. f_equal. rewrite <- seq_shift, map_map. exact IH.
Qed.

(** X2: when exactly one detector matches the packet, [PeekPacket] returns
    nil with that detector's protocol on the metadata, wherever the detector
    stands in the list and however the goroutines are scheduled. *)
Theorem PeekPacket_single_match (metadata : InboundContext) (packet : list byte)
    (ds : list Detector) (sched : list Action) (i : nat) (d : Detector) (p : string) :
  nth_error ds i = Some d ->
  d packet = Matched p ->
  (forall j dj, j <> i -> nth_error ds j = Some dj ->
                exists e, dj packet = Inconclusive e) ->
  fair (length ds) sched ->
  exists r,
    PeekPacket metadata packet (map sniffer_of ds) sched = Some (RetNil, r) /\
    Protocol (meta r) = p /\
    Destination (meta r) = Destination metadata /\
    matches (done r) = 1.
Proof.
  intros Hd Hv Hothers Hfair.
  destruct (@race_matched ds packet metadata [] sched i d p Hd Hv Hfair)
    as (r & j & dj & pj & Hrace & Hpost & Hj & Hdj & Hvj & Hp).
  assert (Hji : j = i).
  { destruct (Nat.eq_dec j i) as [E|N]; [exact E|].
    destruct (Hothers j dj N Hdj) as (e & He). congruence. }
  subst j. assert (Ed : dj = d) by congruence. rewrite Ed in *.
  assert (Ep : pj = p) by congruence. rewrite Ep in *.
  exists r. split.
  { unfold PeekPacket. unfold tasks_of in Hrace. rewrite Hrace. reflexivity. }
  split; [exact Hp|].
  destruct (matched_result Hpost) as (HR & ND & Hin).
  split.
  - eapply detectors_keep_destination. exact HR.
  - assert (Hone : forall k res, In (k, res) (done r) -> res = None -> k = i).
    { intros k res Hk ->. destruct (@detector_results ds packet metadata _ _ HR _ _ Hk) as (dk & Hdk & Hres).
      destruct (Nat.eq_dec k i) as [E|N]; [exact E|].
      destruct (Hothers k dk N Hdk) as (e & He). rewrite He in Hres. discriminate. }
    assert (Hle : matches (done r) <= 1).
    { clear - ND Hone. unfold matches.
      induction (done r) as [|[k res] l IH]; [simpl; lia|].
      simpl in ND. inversion ND as [|? ? Hk ND']; subst.
      assert (IH' : length (filter (fun e => match snd e with None => true | Some _ => false end) l) <= 1).
      { apply IH; [assumption|]. intros k' res' Hk' E. apply (Hone k' res'); [now right | exact E]. }
      simpl. destruct res as [e|]; [exact IH'|]. simpl.
      assert (k = i) by (apply (Hone k None); [now left | reflexivity]). subst k.
      assert (Hz : filter (fun e => match snd e with None => true | Some _ => false end) l = []).
      { destruct (filter _ l) as [|[k' res'] l'] eqn:E; [reflexivity|]. exfalso.
        assert (Hin' : In (k', res') (filter (fun e => match snd e with None => true | Some _ => false end) l))
          by (rewrite E; now left).
        apply filter_In in Hin'. destruct Hin' as [Hin' Hn]. simpl in Hn.
        destruct res'; [discriminate|].
        apply Hk. assert (k' = i) by (apply (Hone k' None); [now right | reflexivity]).
        subst k'. apply in_map_iff. exists (i, None). auto. }
      rewrite Hz. simpl. lia. }
    pose proof (matches_some _ Hin). lia.
Qed.

(** X3: when no detector matches the packet, [PeekPacket] returns
    [E.Errors] of the detectors' reasons, one from each detector, in the
    order in which they arrived; the metadata is as it was and no goroutine
    is left unfinished. *)
Theorem PeekPacket_no_match (metadata : InboundContext) (packet : list byte)
    (ds : list Detector) (sched : list Action) :
  (forall d, In d ds -> exists e, d packet = Inconclusive e) ->
  fair (length ds) sched ->
  exists errs r,
    PeekPacket metadata packet (map sniffer_of ds) sched = Some (RetErrors errs, r) /\
    Permutation (map Some errs) (map (fun d => reason (d packet)) ds) /\
    meta r = metadata /\
    unfinished r = [].
Proof.
  intros Hnone Hfair. rewrite <- (length_map sniffer_of) in Hfair.
  destruct (@race_round (map sniffer_of ds) packet sched metadata [] Hfair)
    as (v & r & Hrace & Hpost).
  assert (Hno : no_match (map sniffer_of ds) packet).
  { intros sn Hsn m. apply in_map_iff in Hsn. destruct Hsn as (d & <- & Hd).
    destruct (Hnone d Hd) as (e & He). unfold sniffer_of. rewrite He. discriminate. }
  pose proof (race_post_no_match Hno Hpost) as ->.
  destruct (drained_results Hpost) as (Hu & HP & HR & recv & HE & Hdone).
  exists recv, r. split.
  { unfold PeekPacket. unfold tasks_of in Hrace. rewrite Hrace.
    simpl in HE. now rewrite HE. }
  split; [|split; [|exact Hu]].
  - rewrite length_tasks_of, length_map in HP.
    apply Permutation_trans with (map snd (done r)); [now symmetry|].
    set (g := fun o : option Detector =>
                match o with Some d => reason (d packet) | None => None end).
    assert (Hg : map snd (done r) = map (fun k => g (nth_error ds k)) (map fst (done r))).
    { assert (Hall : forall k res, In (k, res) (done r) -> res = g (nth_error ds k)).
      { intros k res Hk. destruct (@detector_results ds packet metadata _ _ HR _ _ Hk) as (dk & Hdk & ->).
        now rewrite Hdk. }
      clear - Hall. induction (done r) as [|[k res] l IH]; [reflexivity|].
      simpl. f_equal.
      - apply Hall. now left.
      - apply IH. intros k' res' Hk'. apply Hall. now right. }
    rewrite Hg.
    apply Permutation_trans with (map (fun k => g (nth_error ds k)) (seq 0 (length ds))).
    + now apply Permutation_map.
    + rewrite map_seq_nth_error. reflexivity.
  - eapply (@Ran_quiet (tasks_of (map sniffer_of ds) packet));
      [apply quiet_tasks; apply sniffer_of_quiet | exact HR
       | eapply errors_only; exact Hdone].
Qed.

(** ** PeekStream: what holds of every return *)

Lemma loop_returns deadline sniffers scheds :
  forall i conn metadata buffer errs hist,
    Forall (fair (length sniffers)) scheds ->
    length (reads conn) <= length scheds ->
    exists out,
      PeekStream_loop deadline sniffers scheds i conn metadata buffer errs hist = Some out.
Proof.
  induction scheds as [|sched scheds IH]; intros i conn metadata buffer errs hist Hfair Hlen;
    rewrite loop_eq;
    (destruct (next_arm conn); [eauto|]);
    (destruct (next_failure conn) eqn:Hf; [destruct (0 <? i); eauto|]).
  - exfalso. rewrite next_failure_script in Hf.
    destruct (reads conn); [discriminate | simpl in Hlen; lia].
  - inversion Hfair as [|? ? Hsched Hfair']; subst.
    destruct (@race_round sniffers (buffer ++ next_data conn) sched metadata errs Hsched)
      as (v & r & Hrace & _).
    rewrite Hrace. destruct v; [eauto|].
    apply IH; [assumption|].
    destruct (after_round_fields deadline conn) as (_ & Fr & _). rewrite Fr.
    destruct (reads conn); simpl in *; lia.
Qed.

(** X4: [PeekStream] cannot hang in a race: with fair schedules, at least
    as many as the connection has reads to offer before it runs dry, the
    call returns. *)
Theorem PeekStream_returns (ReadPayloadTimeout : Duration)
    (metadata : InboundContext) (conn : Conn) (buffer : list byte)
    (timeout : Duration) (sniffers : list StreamSniffer)
    (scheds : list (list Action)) :
  Forall (fair (length sniffers)) scheds ->
  length (reads conn) <= length scheds ->
  exists out,
    PeekStream ReadPayloadTimeout metadata conn buffer timeout sniffers scheds = Some out.
Proof. intros Hfair Hlen. unfold PeekStream. now apply loop_returns. Qed.

Lemma next_data_split conn :
  next_data conn ++ flat_map data (tl (reads conn)) = flat_map data (reads conn).
Proof. unfold next_data, ReadOnceFrom. destruct (reads conn); reflexivity. Qed.

Lemma loop_bytes deadline sniffers scheds :
  forall i conn metadata buffer errs hist out,
    PeekStream_loop deadline sniffers scheds i conn metadata buffer errs hist = Some out ->
    exists more,
      buffer_end out = buffer ++ more /\
      more ++ flat_map data (reads (conn_end out)) = flat_map data (reads conn).
Proof.
  assert (One : forall conn buffer,
            buffer ++ next_data conn = buffer ++ next_data conn /\
            next_data conn ++ flat_map data (reads (after_round deadline conn)) =
            flat_map data (reads conn)).
  { intros conn buffer. split; [reflexivity|].
    destruct (after_round_fields deadline conn) as (_ & Fr & _).
    rewrite Fr. apply next_data_split. }
  induction scheds as [|sched scheds IH]; intros i conn metadata buffer errs hist out H;
    rewrite loop_eq in H;
    (destruct (next_arm conn);
     [inversion H; subst; exists []; cbn [buffer_end conn_end];
      (split; [now rewrite app_nil_r | reflexivity])|]);
    (destruct (next_failure conn);
     [destruct (0 <? i); inversion H; subst; exists (next_data conn);
      cbn [buffer_end conn_end]; apply One|]).
  - simpl in H. discriminate.
  - destruct (race (tasks_of sniffers (buffer ++ next_data conn)) (length sniffers) sched
                   (launch metadata errs (length sniffers))) as [[[|] r]|]; [| |discriminate].
    + inversion H; subst. exists (next_data conn). cbn [buffer_end conn_end]. apply One.
    + apply IH in H. destruct H as (more & Hb & Hm).
      exists (next_data conn ++ more). split.
      * rewrite Hb. now rewrite app_assoc.
      * rewrite <- app_assoc, Hm. apply One. exact buffer.
Qed.

(** X5: peeking loses no byte: what [PeekStream] leaves in the buffer is
    what the buffer held followed by the bytes of the reads it made, in
    order, and together with what the connection still has to deliver this
    is the stream as it was. *)
Theorem PeekStream_keeps_bytes (ReadPayloadTimeout : Duration)
    (metadata : InboundContext) (conn : Conn) (buffer : list byte)
    (timeout : Duration) (sniffers : list StreamSniffer)
    (scheds : list (list Action)) (out : Outcome) :
  PeekStream ReadPayloadTimeout metadata conn buffer timeout sniffers scheds = Some out ->
  exists more,
    buffer_end out = buffer ++ more /\
    more ++ flat_map data (reads (conn_end out)) = flat_map data (reads conn).
Proof. intros H. eapply loop_bytes. exact H. Qed.

Lemma loop_sound deadline sniffers scheds :
  forall i conn metadata buffer errs hist out,
    matches (concat hist) = 0 ->
    PeekStream_loop deadline sniffers scheds i conn metadata buffer errs hist = Some out ->
    match ret out with
    | RetNil =>
        exists before log m,
          history out = before ++ [log] /\
          matches (concat before) = 0 /\
          In None (map snd log) /\
          Ran (tasks_of sniffers (buffer_end out)) m log (meta_end out)
    | _ => running out = [] /\ matches (concat (history out)) = 0
    end.
Proof.
  induction scheds as [|sched scheds IH]; intros i conn metadata buffer errs hist out Hz H;
    rewrite loop_eq in H;
    (destruct (next_arm conn); [inversion H; subst; simpl; auto|]);
    (destruct (next_failure conn);
     [destruct (0 <? i); inversion H; subst; simpl; auto|]).
  - simpl in H. discriminate.
  - destruct (race (tasks_of sniffers (buffer ++ next_data conn)) (length sniffers) sched
                   (launch metadata errs (length sniffers))) as [[[|] r]|] eqn:Hrace;
      [| |discriminate]; apply race_started_sound in Hrace.
    + inversion H; subst. cbn [ret history buffer_end meta_end].
      destruct (matched_result Hrace) as (HR & _ & Hin).
      exists hist, (done r), metadata. auto.
    + apply IH in H; [exact H|].
      destruct (drained_results Hrace) as (_ & _ & _ & recv & _ & Hd).
      rewrite concat_app, matches_app, Hz. simpl. rewrite app_nil_r.
      apply matches_none. eapply errors_only. exact Hd.
Qed.

(** X6: whatever the schedules, [PeekStream] leaves through [return nil]
    only when, in the last race, a sniffer call on the whole buffer as it is
    handed back returned nil, no call of an earlier round having done so;
    and when it leaves through another return statement no sniffer call
    ever returned nil and no goroutine is left unfinished. *)
Theorem PeekStream_verdict (ReadPayloadTimeout : Duration)
    (metadata : InboundContext) (conn : Conn) (buffer : list byte)
    (timeout : Duration) (sniffers : list StreamSniffer)
    (scheds : list (list Action)) (out : Outcome) :
  PeekStream ReadPayloadTimeout metadata conn buffer timeout sniffers scheds = Some out ->
  match ret out with
  | RetNil =>
      exists before log m,
        history out = before ++ [log] /\
        matches (concat before) = 0 /\
        In None (map snd log) /\
        Ran (tasks_of sniffers (buffer_end out)) m log (meta_end out)
  | _ => running out = [] /\ matches (concat (history out)) = 0
  end.
Proof. intros H. eapply loop_sound; [|exact H]. reflexivity. Qed.

Lemma loop_account deadline sniffers scheds :
  forall i conn metadata buffer errs hist out,
    i = length hist ->
    PeekStream_loop deadline sniffers scheds i conn metadata buffer errs hist = Some out ->
    let reads := reads_made (calls (conn_end out)) in
    let before := reads_made (calls conn) in
    let races := length (history out) in
    match ret out with
    | RetNil => reads + i = before + races /\ i < races
    | RetErrors _ => reads + i = before + races + 1 /\ 0 < races
    | RetCause _ msg =>
        (msg = "set read deadline"%string /\ reads + i = before + races) \/
        (msg = "read payload"%string /\ i = 0 /\ races = 0 /\ reads = before + 1)
    end.
Proof.
  assert (One : forall conn, reads_made (calls (after_round deadline conn)) =
                             reads_made (calls conn) + 1).
  { intros conn. destruct (after_round_fields deadline conn) as (_ & _ & Fc).
    now rewrite Fc, reads_made_app, reads_made_block. }
  induction scheds as [|sched scheds IH]; intros i conn metadata buffer errs hist out Hi H;
    rewrite loop_eq in H;
    (destruct (next_arm conn);
     [inversion H; subst; cbn [ret conn_end history]; left; split; [reflexivity|];
      unfold SetReadDeadline; cbn [fst calls]; rewrite reads_made_app;
      match goal with |- context [reads_made [CallSetReadDeadline ?d]] =>
        change (reads_made [CallSetReadDeadline d]) with 0 end; lia|]);
    (destruct (next_failure conn);
     [destruct (0 <? i) eqn:Hpos; inversion H; subst; cbn [ret conn_end history];
      rewrite One;
      [apply Nat.ltb_lt in Hpos; lia
      |apply Nat.ltb_ge in Hpos; right; split; [reflexivity|]; lia]|]).
  - simpl in H. discriminate.
  - destruct (race (tasks_of sniffers (buffer ++ next_data conn)) (length sniffers) sched
                   (launch metadata errs (length sniffers))) as [[[|] r]|]; [| |discriminate].
    + inversion H; subst. cbn [ret conn_end history]. rewrite One, length_app. simpl. lia.
    + apply IH in H; [|rewrite length_app; simpl; lia].
      rewrite One in H. cbv zeta in *.
      destruct (ret out) as [|e msg|errs']; [lia | | lia].
      destruct H as [[E H]|[E [H0 _]]]; [left; split; [exact E | lia] | discriminate].
Qed.

(** X7: every read that succeeds is followed by one race and a failed read
    ends the call.  [return nil] comes after as many reads as races, at
    least one; [return E.Errors] comes after one read more than races and
    at least one race,
    so never on the first read; a wrapped read error comes only from the
    very first read, before any race; a wrapped arming error comes after as
    many reads as races. *)
Theorem PeekStream_reads_and_races (ReadPayloadTimeout : Duration)
    (metadata : InboundContext) (conn : Conn) (buffer : list byte)
    (timeout : Duration) (sniffers : list StreamSniffer)
    (scheds : list (list Action)) (out : Outcome) :
  PeekStream ReadPayloadTimeout metadata conn buffer timeout sniffers scheds = Some out ->
  let reads := reads_made (calls (conn_end out)) in
  let before := reads_made (calls conn) in
  let races := length (history out) in
  match ret out with
  | RetNil => reads = before + races /\ 1 <= races
  | RetErrors _ => reads = before + races + 1 /\ 1 <= races
  | RetCause _ msg =>
      (msg = "set read deadline"%string /\ reads = before + races) \/
      (msg = "read payload"%string /\ races = 0 /\ reads = before + 1)
  end.
Proof.
  intros H. unfold PeekStream in H. apply loop_account in H; [|reflexivity].
  cbv zeta in *. destruct (ret out) as [|e msg|errs]; [lia | | lia].
  destruct H as [[E H]|[E H]]; [left | right]; (split; [exact E|]); lia.
Qed.

(** ** The Clash API: rule listing *)



(** X8: the first [getRules] panics exactly when the router has no
    default outbound for TCP or none for UDP. *)
Theorem getRules_panics_iff (router : Router) :
  getRules router = None <->
  DefaultOutbound router NetworkTCP = None \/ DefaultOutbound router NetworkUDP = None.
Proof.
  unfold getRules.
  destruct (DefaultOutbound router NetworkTCP) as [tcp|];
    destruct (DefaultOutbound router NetworkUDP) as [udp|]; simpl.
  - split.
    + destruct (Nat.eqb (outbound_addr tcp) (outbound_addr udp)); discriminate.
    + intros [H|H]; discriminate.
  - split; auto.
  - split; auto.
  - split; auto.
Qed.



(** ** The Clash API: rule providers *)

Lemma M_get_set {V} (key k : string) (v : V) (m : M V) :
  M_get key (M_set k v m) = if String.eqb k key then Some v else M_get key m.
Proof.
  induction m as [|[k' v'] m IH]; simpl.
  - reflexivity.
  - destruct (String.eqb k' k) eqn:E; simpl.
    + apply String.eqb_eq in E. subst k'. destruct (String.eqb k key); reflexivity.
    + destruct (String.eqb k' key) eqn:E'.
      * apply String.eqb_eq in E'. subst k'.
        rewrite String.eqb_sym in E. now rewrite E.
      * exact IH.
Qed.

Lemma M_set_fresh {V} (k : string) (v : V) (m : M V) :
  ~ In k (map fst m) -> M_set k v m = m ++ [(k, v)].
Proof.
  induction m as [|[k' v'] m IH]; intros Hn; [reflexivity|]. simpl in *.
  destruct (String.eqb k' k) eqn:E.
  - apply String.eqb_eq in E. tauto.
  - f_equal. apply IH. tauto.
Qed.

Lemma find_app_first {A} (f : A -> bool) (l1 l2 : list A) :
  find f (l1 ++ l2) = match find f l1 with Some x => Some x | None => find f l2 end.
Proof. induction l1 as [|a l1 IH]; simpl; [reflexivity|]. now destruct (f a). Qed.

Lemma fold_set_get {A V} (tag : A -> string) (info : A -> V) (key : string)
    (l : list A) :
  forall m,
    M_get key (fold_left (fun providerMap e => M_set (tag e) (info e) providerMap) l m) =
    match find (fun e => String.eqb (tag e) key) (rev l) with
    | Some e => Some (info e)
    | None => M_get key m
    end.
Proof.
  induction l as [|e l IH]; intros m; [reflexivity|].
  simpl. rewrite IH, find_app_first.
  destruct (find (fun e0 => String.eqb (tag e0) key) (rev l)); [reflexivity|].
  simpl. rewrite M_get_set. now destruct (String.eqb (tag e) key).
Qed.

Lemma fold_set_fresh {A V} (tag : A -> string) (info : A -> V) (l : list A) :
  forall m,
    NoDup (map fst m ++ map tag l) ->
    fold_left (fun providerMap e => M_set (tag e) (info e) providerMap) l m =
    m ++ map (fun e => (tag e, info e)) l.
Proof.
  induction l as [|e l IH]; intros m ND; simpl; [now rewrite app_nil_r|].
  simpl in ND. rewrite M_set_fresh.
  - rewrite IH; [now rewrite <- app_assoc|].
    rewrite map_app. simpl. now rewrite <- app_assoc.
  - apply NoDup_remove_2 in ND. intros Hin. apply ND. apply in_or_app. now left.
Qed.

Section ClashAPIFacts.

Variable ToString : nat -> string.
Variable ToUpper : string -> string.
Variable time_Format : Time -> string -> string.
Variable MarshalJSON : JSONObject -> list byte * option error.
Variable ErrNotFound : HTTPError.

(** X11: in the map of [getRuleProviders] a key holds the info of the last
    rule set listed under it, a rule set being listed under its name or,
    when the name is empty, under its index; a key nobody is listed under
    is absent. *)
Theorem getRuleProviders_last_wins (router : Router) (key : string) :
  M_get key (getRuleProviders ToString ToUpper time_Format router) =
  option_map
    (fun e => ruleProviderInfo ToUpper time_Format (snd e))
    (find (fun e => String.eqb (provider_tag ToString (fst e) (snd e)) key)
          (rev (combine (seq 0 (length (RuleSets router))) (RuleSets router)))).
Proof.
  unfold getRuleProviders.
  rewrite (fold_set_get (fun e => provider_tag ToString (fst e) (snd e))
             (fun e => ruleProviderInfo ToUpper time_Format (snd e))).
  destruct (find _ _); reflexivity.
Qed.

(** X12: when no two rule sets are listed under the same key, the map of
    [getRuleProviders] has exactly one entry per rule set, in their order,
    each under its own key. *)
Theorem getRuleProviders_distinct (router : Router) :
  NoDup (map (fun e => provider_tag ToString (fst e) (snd e))
             (combine (seq 0 (length (RuleSets router))) (RuleSets router))) ->
  getRuleProviders ToString ToUpper time_Format router =
  map (fun e => (provider_tag ToString (fst e) (snd e),
                 ruleProviderInfo ToUpper time_Format (snd e)))
      (combine (seq 0 (length (RuleSets router))) (RuleSets router)).
Proof.
  intros ND. unfold getRuleProviders.
  exact (fold_set_fresh (fun e => provider_tag ToString (fst e) (snd e))
           (fun e => ruleProviderInfo ToUpper time_Format (snd e)) _ [] ND).
Qed.

(** X13: a PUT on a named provider, through [findRuleProviderByName] into
    [updateRuleProvider]: for a name the router does not know the answer is
    404 with [ErrNotFound] and nothing is updated; otherwise exactly that
    rule set is updated, once, and the answer is 204 without a body, or
    500 with the error of the update. *)
Theorem provider_put (router : Router) (ctx : Context) (name : string)
    (updated : list string) :
  Value ctx CtxKeyProviderName = Some (CtxString name) ->
  findRuleProviderByName ErrNotFound router updateRuleProvider ctx updated =
  match RuleSet router name with
  | None =>
      Some (updated, {| Status := StatusNotFound; Content := JSONError ErrNotFound |})
  | Some provider =>
      Some (updated ++ [Name provider],
            match Update provider with
            | None => {| Status := StatusNoContent; Content := NoBody |}
            | Some e => {| Status := StatusInternalServerError;
                           Content := JSONError (newError e) |}
            end)
  end.
Proof.
  intros Hname. unfold findRuleProviderByName. rewrite Hname.
  destruct (RuleSet router name) as [provider|]; [|reflexivity].
  unfold updateRuleProvider. simpl. now destruct (Update provider).
Qed.

(** X14: a GET on a named provider, through [findRuleProviderByName] into
    [getRuleProvider]: 404 with [ErrNotFound] for a name the router does
    not know; otherwise the marshalled info of that rule set with status
    200, or 500 with the error of the marshalling; in no case is a rule set
    updated. *)
Theorem provider_get (router : Router) (ctx : Context) (name : string)
    (updated : list string) :
  Value ctx CtxKeyProviderName = Some (CtxString name) ->
  findRuleProviderByName ErrNotFound router
    (getRuleProvider ToUpper time_Format MarshalJSON) ctx updated =
  match RuleSet router name with
  | None =>
      Some (updated, {| Status := StatusNotFound; Content := JSONError ErrNotFound |})
  | Some provider =>
      Some (updated,
            match MarshalJSON (ruleProviderInfo ToUpper time_Format provider) with
            | (response, None) => {| Status := StatusOK; Content := Raw response |}
            | (_, Some e) => {| Status := StatusInternalServerError;
                                Content := JSONError (newError e) |}
            end)
  end.
Proof.
  intros Hname. unfold findRuleProviderByName. rewrite Hname.
  destruct (RuleSet router name) as [provider|]; [|reflexivity].
  unfold getRuleProvider. simpl.
  destruct (MarshalJSON (ruleProviderInfo ToUpper time_Format provider)) as [response [e|]];
    reflexivity.
Qed.

End ClashAPIFacts.

(** ** The further theorems at work *)

Lemma only_raw_matches_zero :
  forall j dj, j <> 1 -> nth_error registry j = Some dj ->
               exists e, dj zero_packet = Inconclusive e.
Proof.
  intros j dj Hj Hn. destruct j as [|[|j]].
  - injection Hn as <-. eexists. reflexivity.
  - elim Hj. reflexivity.
  - destruct j; discriminate.
Defined.

Lemma nothing_matches_nothing :
  forall d, In d registry -> exists e, d [] = Inconclusive e.
Proof. intros d [<-|[<-|[]]]; eexists; reflexivity. Defined.

Lemma sample_tags_distinct :
  NoDup (map (fun e => provider_tag decimal_digit (fst e) (snd e))
             (combine (seq 0 (length (RuleSets sample_router))) (RuleSets sample_router))).
Proof.
  constructor; [|constructor; [intros [] | constructor]].
  intros [H|[]]. discriminate H.
Defined.

Lemma PeekPacket_verdict_witness :
  exists r,
    PeekPacket blank hello (map sniffer_of registry) first_then_recv = Some (RetNil, r) /\
    In None (map snd (done r)).
Proof.
  eassert (H : PeekPacket blank hello (map sniffer_of registry) first_then_recv
               = Some (RetNil, _)) by (vm_compute; reflexivity).
  destruct (PeekPacket_verdict _ _ _ _ H) as (_ & _ & H1).
  eexists. split; [exact H | exact H1].
Defined.

Lemma PeekPacket_single_match_witness :
  exists r,
    PeekPacket blank zero_packet (map sniffer_of registry) (drain 2) = Some (RetNil, r) /\
    Protocol (meta r) = "raw"%string.
Proof.
  destruct (@PeekPacket_single_match blank zero_packet registry (drain 2) 1
              raw_detector "raw"%string)
    as (r & H1 & H2 & _);
    [premise | premise | apply only_raw_matches_zero | premise |].
  exists r. split; [exact H1 | exact H2].
Defined.

Lemma PeekPacket_no_match_witness :
  exists errs r,
    PeekPacket blank [] (map sniffer_of registry) (drain 2) = Some (RetErrors errs, r) /\
    meta r = blank.
Proof.
  destruct (@PeekPacket_no_match blank [] registry (drain 2))
    as (errs & r & H1 & _ & H2 & _); [apply nothing_matches_nothing | premise |].
  exists errs, r. split; [exact H1 | exact H2].
Defined.

Lemma PeekStream_returns_witness :
  exists out,
    PeekStream 300%Z blank (scripted [] [ok_read []; ok_read []]) [] 0%Z
               (map sniffer_of registry) [drain 2; drain 2] = Some out.
Proof.
  apply PeekStream_returns; [premise | apply le_n].
Defined.

Lemma PeekStream_keeps_bytes_witness :
  exists out more,
    PeekStream 300%Z blank (scripted [] [ok_read hello; ok_read hello]) [Byte.x16] 0%Z
               (map sniffer_of registry) [first_then_recv] = Some out /\
    buffer_end out = [Byte.x16] ++ more /\
    more ++ flat_map data (reads (conn_end out)) = hello ++ hello ++ [].
Proof.
  eassert (H : PeekStream 300%Z blank (scripted [] [ok_read hello; ok_read hello])
                          [Byte.x16] 0%Z (map sniffer_of registry) [first_then_recv]
               = Some _) by (vm_compute; reflexivity).
  destruct (PeekStream_keeps_bytes _ _ _ _ _ _ _ H) as (more & H1 & H2).
  eexists. exists more. split; [exact H|]. split; [exact H1 | exact H2].
Defined.

Lemma PeekStream_verdict_witness :
  exists out,
    PeekStream 300%Z blank (scripted [] [ok_read []; bad_read "timeout"%string]) [] 0%Z
               (map sniffer_of registry) [drain 2] = Some out /\
    running out = [] /\
    matches (concat (history out)) = 0.
Proof.
  eassert (H : PeekStream 300%Z blank (scripted [] [ok_read []; bad_read "timeout"%string])
                          [] 0%Z (map sniffer_of registry) [drain 2]
               = Some {| ret := RetErrors _; conn_end := _; meta_end := _;
                         buffer_end := _; running := _; history := _ |})
    by (vm_compute; reflexivity).
  pose proof (PeekStream_verdict _ _ _ _ _ _ _ H) as H1.
  eexists. split; [exact H | exact H1].
Defined.

Lemma PeekStream_reads_and_races_witness :
  exists out,
    PeekStream 300%Z blank (scripted [] [ok_read []; bad_read "timeout"%string]) [] 0%Z
               (map sniffer_of registry) [drain 2] = Some out /\
    reads_made (calls (conn_end out)) = 0 + length (history out) + 1 /\
    1 <= length (history out).
Proof.
  eassert (H : PeekStream 300%Z blank (scripted [] [ok_read []; bad_read "timeout"%string])
                          [] 0%Z (map sniffer_of registry) [drain 2]
               = Some {| ret := RetErrors _; conn_end := _; meta_end := _;
                         buffer_end := _; running := _; history := _ |})
    by (vm_compute; reflexivity).
  pose proof (PeekStream_reads_and_races _ _ _ _ _ _ _ H) as H1.
  eexists. split; [exact H | exact H1].
Defined.


Lemma getRuleProviders_distinct_witness :
  getRuleProviders decimal_digit (fun s => s) (fun _ layout => layout) sample_router =
  map (fun e => (provider_tag decimal_digit (fst e) (snd e),
                 ruleProviderInfo (fun s => s) (fun _ layout => layout) (snd e)))
      (combine (seq 0 2) [geoip_set; unnamed_set]).
Proof.
  exact (@getRuleProviders_distinct decimal_digit (fun s => s) (fun _ layout => layout)
           sample_router sample_tags_distinct).
Defined.

Lemma provider_put_witness :
  findRuleProviderByName (newError "Resource not found") sample_router
    updateRuleProvider named_request [] =
  Some (["geoip"%string], {| Status := StatusNoContent; Content := NoBody |}).
Proof.
  exact (@provider_put (newError "Resource not found") sample_router named_request
           "geoip"%string [] eq_refl).
Defined.

Lemma provider_get_witness :
  findRuleProviderByName (newError "Resource not found") sample_router
    (getRuleProvider (fun s => s) (fun _ layout => layout) (fun _ => ([], None)))
    named_request [] =
  Some ([], {| Status := StatusOK; Content := Raw [] |}).
Proof.
  exact (@provider_get (fun s => s) (fun _ layout => layout) (fun _ => ([], None))
           (newError "Resource not found") sample_router named_request "geoip"%string []
           eq_refl).
Defined.
